(** * A card-matching game: the card ledger, its undo history and the
      move rules of the controller

    Shallow embedding of [models/CardData.ts], [models/GameModel.ts] and of
    [controllers/GameController.ts] without its rendering.

    Conventions of the embedding.
    - A JavaScript [number] that the program uses as a card id, a face, a
      suit or a coordinate is an integer, modelled as [Z].  The program
      increments ids, subtracts two faces, and copies or shifts
      coordinates.
    - [Map<number, CardData>] is a finite map [gmap Z CardData].  A
      [CardData] object lives in the map, so an assignment to a field of a
      card is the update of the map at the key of the card.
    - A position object [{x, y}] is a value.  [GameModel] copies or
      replaces positions and never writes to a field of one; the one write
      to a field, in [_createCardNode], happens when the game starts, while
      every position object belongs to one card.
    - The array [_history] grows at its end ([push]) and shrinks at its end
      ([pop]): the most recent record is the last element of the list.
    - A statement that raises a [TypeError] (reading a property of
      [undefined]) is modelled by an explicit completion.
    - The scene is the three pile nodes with their children.  Every card
      node comes from the card prefab, with a [CardView] and a
      [UITransform]; bounding boxes and active flags belong to the
      presentation layer and are parameters. *)

From stdpp Require Import gmap strings list fin_maps sorting.

#[local] Open Scope string_scope.
#[local] Open Scope Z_scope.

(** ** CardData.ts *)

Record Vec2 : Type := mkVec2 { x : Z; y : Z }.

Record CardData : Type := new_CardData {
  id : Z;
  face : Z;
  suit : Z;
  area : string;
  position : Vec2
}.

#[global] Instance Vec2_eq_dec : EqDecision Vec2.
Proof. solve_decision. Defined.

#[global] Instance CardData_eq_dec : EqDecision CardData.
Proof. solve_decision. Defined.

(** [card.area = a; card.position = p] on a card object. *)
Definition place (card : CardData) (a : string) (p : Vec2) : CardData :=
  {| id := id card; face := face card; suit := suit card;
     area := a; position := p |}.

(** ** The layout document read by [loadData] *)

Record LayoutItem : Type := mkLayoutItem {
  CardFace : Z;
  CardSuit : Z;
  Position : Vec2
}.

(** [Playfield] and [Stack] are properties of the parsed JSON document: a
    property that the document lacks reads as [undefined], here [None]. *)
Record Layout : Type := mkLayout {
  Playfield : option (list LayoutItem);
  Stack : option (list LayoutItem)
}.

(** How a method call ends: it returns a value, or it raises the
    [TypeError] of reading a property of [undefined]. *)
Inductive Completion (A : Type) : Type :=
| Normal (v : A)
| TypeError.

Arguments Normal {A} v.
Arguments TypeError {A}.

(** ** GameModel.ts *)

Record MoveRecord : Type := mkMoveRecord {
  cardId : Z;
  oldArea : string;
  oldPos : Vec2
}.

Record GameModel : Type := mkGameModel {
  _cards : gmap Z CardData;
  _history : list MoveRecord
}.

(** [new GameModel()] *)
Definition new_GameModel : GameModel :=
  {| _cards := ∅; _history := [] |}.

(** [Array.prototype.forEach] with the element and its index, threading
    the variables that the callback assigns. *)
Fixpoint forEach {A S : Type} (f : A → Z → S → S) (arr : list A)
    (index : Z) (s : S) : S :=
  match arr with
  | [] => s
  | item :: rest => forEach f rest (index + 1) (f item index s)
  end.

(** One callback of the two loops of [loadData]: the state is the local
    [idCounter] and the map [_cards]. *)
Definition load_item (a : string) (item : LayoutItem)
    (s : Z * gmap Z CardData) : Z * gmap Z CardData :=
  let '(idCounter, cards) := s in
  let card :=
    new_CardData idCounter (CardFace item) (CardSuit item) a (Position item) in
  (idCounter + 1, <[id card := card]> cards).

Definition stack_area (index : Z) (len : nat) : string :=
  if bool_decide (index = Z.of_nat len - 1) then "discard" else "stock".

Definition loadData (jsonData : Layout) (m : GameModel)
    : Completion unit * GameModel :=
  let idCounter := 0 in
  match Playfield jsonData with
  | None => (TypeError, m)
  | Some playfield =>
      let s1 :=
        forEach (λ item _, load_item "main" item)
                playfield 0 (idCounter, _cards m) in
      match Stack jsonData with
      | None =>
          (TypeError, {| _cards := s1.2; _history := _history m |})
      | Some stack =>
          let s2 :=
            forEach (λ item index,
                       load_item (stack_area index (length stack)) item)
                    stack 0 s1 in
          (Normal tt, {| _cards := s2.2; _history := _history m |})
      end
  end.

Definition getCardById (m : GameModel) (cardId : Z) : option CardData :=
  _cards m !! cardId.

(** [Map.prototype.forEach] visits the entries in the order in which their
    keys were first inserted.  [loadData] inserts the ids in increasing
    order, into a new map and into a loaded one alike, so the entries are
    visited by increasing key. *)
Definition key_le (e1 e2 : Z * CardData) : Prop := e1.1 ≤ e2.1.

#[global] Instance key_le_dec : RelDecision key_le.
Proof. intros e1 e2. unfold key_le. apply _. Defined.

#[global] Instance key_le_total : Total key_le.
Proof. intros e1 e2. unfold key_le. lia. Qed.

#[global] Instance key_le_trans : Transitive key_le.
Proof. intros e1 e2 e3. unfold key_le. lia. Qed.

Definition entries (cards : gmap Z CardData) : list (Z * CardData) :=
  merge_sort key_le (map_to_list cards).

Definition getCardsInArea (m : GameModel) (a : string) : list CardData :=
  filter (λ card, area card = a) (entries (_cards m)).*2.

Definition moveCard (cardId : Z) (targetArea : string) (targetPos : Vec2)
    (m : GameModel) : bool * GameModel :=
  match _cards m !! cardId with
  | None => (false, m)
  | Some card =>
      let record :=
        {| cardId := id card;
           oldArea := area card;
           oldPos := {| x := x (position card); y := y (position card) |} |} in
      (true,
       {| _cards := <[cardId := place card targetArea targetPos]> (_cards m);
          _history := _history m ++ [record] |})
  end.

(** [Array.prototype.pop]: the last element and the array without it. *)
Fixpoint pop {A : Type} (arr : list A) : option (A * list A) :=
  match arr with
  | [] => None
  | a :: rest =>
      match pop rest with
      | None => Some (a, [])
      | Some (last, rest') => Some (last, a :: rest')
      end
  end.

Definition undo (m : GameModel) : option MoveRecord * GameModel :=
  match pop (_history m) with
  | None => (None, m)
  | Some (last, history) =>
      match _cards m !! cardId last with
      | Some card =>
          (Some last,
           {| _cards :=
                <[cardId last := place card (oldArea last) (oldPos last)]>
                  (_cards m);
              _history := history |})
      | None => (Some last, {| _cards := _cards m; _history := history |})
      end
  end.


(** ** GameController.ts

    The controller owns the model and three pile nodes of the scene.  A
    card node is instantiated from the card prefab, one per card, and is
    identified by the [cardId] of its [CardView] component; [_cardViewMap]
    sends a card id to that node.  Each pile is represented by the array of
    its children, in stacking order: [setParent] puts a node at the end. *)

Record GameController : Type := mkGameController {
  _model : GameModel;
  mainCardArea : list Z;
  stockPile : list Z;
  discardPile : list Z
}.

Inductive PileNode : Type :=
| MainCardArea
| StockPile
| DiscardPile.

#[global] Instance PileNode_eq_dec : EqDecision PileNode.
Proof. solve_decision. Defined.

Definition children (g : GameController) (p : PileNode) : list Z :=
  match p with
  | MainCardArea => mainCardArea g
  | StockPile => stockPile g
  | DiscardPile => discardPile g
  end.

Definition set_children (p : PileNode) (l : list Z) (g : GameController)
    : GameController :=
  match p with
  | MainCardArea =>
      {| _model := _model g; mainCardArea := l;
         stockPile := stockPile g; discardPile := discardPile g |}
  | StockPile =>
      {| _model := _model g; mainCardArea := mainCardArea g;
         stockPile := l; discardPile := discardPile g |}
  | DiscardPile =>
      {| _model := _model g; mainCardArea := mainCardArea g;
         stockPile := stockPile g; discardPile := l |}
  end.

Definition set_model (m : GameModel) (g : GameController) : GameController :=
  {| _model := m; mainCardArea := mainCardArea g;
     stockPile := stockPile g; discardPile := discardPile g |}.

(** [cardNode.parent]: the pile that has the node among its children, if
    any.  A node has one parent, so the order of the three tests is
    immaterial. *)
Definition parent (g : GameController) (cardNode : Z) : option PileNode :=
  if bool_decide (cardNode ∈ discardPile g) then Some DiscardPile
  else if bool_decide (cardNode ∈ stockPile g) then Some StockPile
  else if bool_decide (cardNode ∈ mainCardArea g) then Some MainCardArea
  else None.

Definition removeFromParent (cardNode : Z) (g : GameController)
    : GameController :=
  match parent g cardNode with
  | None => g
  | Some p => set_children p (filter (λ n, n ≠ cardNode) (children g p)) g
  end.

(** [node.removeFromParent(); node.setParent(p)] *)
Definition setParent (p : PileNode) (cardNode : Z) (g : GameController)
    : GameController :=
  let g' := removeFromParent cardNode g in
  set_children p (children g' p ++ [cardNode]) g'.

(** [new GameController()], with the empty piles of the scene. *)
Definition new_GameController : GameController :=
  {| _model := new_GameModel;
     mainCardArea := []; stockPile := []; discardPile := [] |}.

(** [instantiate(cardPrefab)] followed by [setParent(p)]: a new node, the
    last child of the pile. *)
Definition addChild (p : PileNode) (cardNode : Z) (g : GameController)
    : GameController :=
  set_children p (children g p ++ [cardNode]) g.

(** [data.position.x += dx] on the card object [data], which is the one
    that the ledger holds under its id. *)
Definition shift_x (data : CardData) (dx : Z) (m : GameModel) : GameModel :=
  {| _cards :=
       alter (λ card, place card (area card)
                        {| x := x (position card) + dx;
                           y := y (position card) |})
             (id data) (_cards m);
     _history := _history m |}.

Definition _createCardNode (data : CardData) (g : GameController)
    : GameController :=
  if bool_decide (area data = "main") then
    addChild MainCardArea (id data) g
  else if bool_decide (area data = "stock") then
    let idx := Z.of_nat (length (stockPile g)) in
    addChild StockPile (id data)
      (set_model (shift_x data (idx * 100) (_model g)) g)
  else if bool_decide (area data = "discard") then
    addChild DiscardPile (id data) g
  else g.

Definition _createAllCards (g : GameController) : GameController :=
  foldl (λ g a,
           foldl (λ g data, _createCardNode data g) g
                 (getCardsInArea (_model g) a))
        g ["main"; "stock"; "discard"].

(** The callback of [_loadConfig], for a configuration that was read. *)
Definition _loadConfig (json : Layout) (g : GameController)
    : Completion unit * GameController :=
  match loadData json (_model g) with
  | (Normal _, m) => (Normal tt, _createAllCards (set_model m g))
  | (TypeError, m) => (TypeError, set_model m g)
  end.

(** [_isCovered]: some later sibling is active and its bounding box
    intersects the one of the node.  [active n] and [intersects n n'] are
    what the presentation layer answers for [upperNode.active] and
    [currentRect.intersects(upperRect)]. *)
Definition _isCovered (active : Z → bool) (intersects : Z → Z → bool)
    (g : GameController) (cardNode : Z) : bool :=
  match parent g cardNode with
  | None => false
  | Some p =>
      let siblings := children g p in
      match list_find (λ n, n = cardNode) siblings with
      | None => false
      | Some (currentIdx, _) =>
          existsb (λ upperNode,
                     active upperNode && intersects cardNode upperNode)
                  (drop (S currentIdx) siblings)
      end
  end.

Definition isMatch (g : GameController) (cardId : Z) : Completion bool :=
  let discardChildren := discardPile g in
  match last discardChildren with
  | None => Normal false
  | Some topNode =>
      match getCardById (_model g) topNode with
      | None => TypeError
      | Some topCard =>
          let topFace := face topCard in
          match getCardById (_model g) cardId with
          | None => Normal false
          | Some currentCard =>
              Normal (bool_decide (Z.abs (face currentCard - topFace) = 1))
          end
      end
  end.

(** [_cardViewMap.get(cardId)] is the node of the card, if it has one. *)
Definition _moveCardToDiscard (cardId : Z) (g : GameController)
    : GameController :=
  let targetPos := {| x := 0; y := 0 |} in
  let '(success, model) := moveCard cardId "discard" targetPos (_model g) in
  if success then
    match parent g cardId with
    | Some _ => setParent DiscardPile cardId (set_model model g)
    | None => set_model model g
    end
  else g.

Definition _onCardClick (active : Z → bool) (intersects : Z → Z → bool)
    (cardNode : Z) (g : GameController) : Completion unit * GameController :=
  let cardId := cardNode in
  if _isCovered active intersects g cardNode then (Normal tt, g)
  else
    match parent g cardNode with
    | Some DiscardPile => (Normal tt, g)
    | Some StockPile => (Normal tt, _moveCardToDiscard cardId g)
    | Some MainCardArea =>
        match isMatch g cardId with
        | Normal true => (Normal tt, _moveCardToDiscard cardId g)
        | Normal false => (Normal tt, g)
        | TypeError => (TypeError, g)
        end
    | None => (Normal tt, g)
    end.

Definition _getNodeForArea (a : string) : option PileNode :=
  if bool_decide (a = "main") then Some MainCardArea
  else if bool_decide (a = "stock") then Some StockPile
  else if bool_decide (a = "discard") then Some DiscardPile
  else None.

Definition _onUndo (g : GameController) : GameController :=
  let '(last, model) := undo (_model g) in
  let g' := set_model model g in
  match last with
  | None => g'
  | Some last =>
      match parent g' (cardId last) with
      | None => g'
      | Some _ =>
          match _getNodeForArea (oldArea last) with
          | None => g'
          | Some p => setParent p (cardId last) g'
          end
      end
  end.

(** ** Sequences of operations on the model *)

Inductive Op : Type :=
| OpMove (cardId : Z) (targetArea : string) (targetPos : Vec2)
| OpUndo.

Definition step_op (op : Op) (m : GameModel) : GameModel :=
  match op with
  | OpMove k a p => (moveCard k a p m).2
  | OpUndo => (undo m).2
  end.

Fixpoint run (ops : list Op) (m : GameModel) : GameModel :=
  match ops with
  | [] => m
  | op :: rest => run rest (step_op op m)
  end.

(** The calls [moveCard] of a list, in order: whether all of them
    returned [true], and the model they leave. *)
Fixpoint moveCards (moves : list (Z * string * Vec2)) (m : GameModel)
    : bool * GameModel :=
  match moves with
  | [] => (true, m)
  | (k, a, p) :: rest =>
      let '(success, m1) := moveCard k a p m in
      let '(successes, m2) := moveCards rest m1 in
      (success && successes, m2)
  end.

(** [n] calls of [undo] in a row. *)
Fixpoint undos (n : nat) (m : GameModel) : GameModel :=
  match n with
  | O => m
  | S n' => undos n' (undo m).2
  end.

(** ** Invariants *)

(** Every key of the map is the id of the card stored under it. *)
Definition ledger_wf (cards : gmap Z CardData) : Prop :=
  ∀ k card, cards !! k = Some card → id card = k.

(** The states of a [GameModel] object: its fields are private, so they
    change through its methods only. *)
Inductive reachable : GameModel → Prop :=
| reachable_new : reachable new_GameModel
| reachable_loadData jsonData m :
    reachable m → reachable (loadData jsonData m).2
| reachable_moveCard k a p m :
    reachable m → reachable (moveCard k a p m).2
| reachable_undo m :
    reachable m → reachable (undo m).2.

Definition area_name (p : PileNode) : string :=
  match p with
  | MainCardArea => "main"
  | StockPile => "stock"
  | DiscardPile => "discard"
  end.

(** The scene shows the ledger: the card of every node of a pile is in
    the ledger, in the area of that pile. *)
Definition scene_consistent (g : GameController) : Prop :=
  ∀ p n, n ∈ children g p →
    ∃ card, _cards (_model g) !! n = Some card ∧ area card = area_name p.

(** The records of the history name areas that have a pile. *)
Definition history_areas (g : GameController) : Prop :=
  ∀ r, r ∈ _history (_model g) → is_Some (_getNodeForArea (oldArea r)).

(** A node is a child of one pile at most. *)
Definition scene_tree (g : GameController) : Prop :=
  ∀ p q n, n ∈ children g p → n ∈ children g q → p = q.

(** Two ledgers with the same cards up to their positions. *)
Definition same_areas (cards cards' : gmap Z CardData) : Prop :=
  ∀ k, (λ card, (id card, area card)) <$> cards' !! k
       = (λ card, (id card, area card)) <$> cards !! k.

Definition controller_inv (g : GameController) : Prop :=
  scene_consistent g ∧ history_areas g.

(** The states of the controller of a started game. *)
Inductive playing : GameController → Prop :=
| playing_start json g :
    _loadConfig json new_GameController = (Normal tt, g) → playing g
| playing_click active intersects n g :
    playing g → playing (_onCardClick active intersects n g).2
| playing_undo g :
    playing g → playing (_onUndo g).

(** A card that ignores its placement. *)
Definition identity (card : CardData) : Z * Z * Z :=
  (id card, face card, suit card).

(** C8 as the specification has it: a layout that lacks a list is loaded
    without an error being raised. *)
Definition loads_silently (jsonData : Layout) (m : GameModel) : Prop :=
  Playfield jsonData = None ∨ Stack jsonData = None →
  (loadData jsonData m).1 = Normal tt.

(** What a card shows of its placement. *)
Definition placement (m : GameModel) (k : Z) : option (string * Vec2) :=
  (λ card, (area card, position card)) <$> _cards m !! k.

(** ** CardView.ts

    [updateDisplay] asks the resource loader for three sprite frames, one
    for each sprite of the card node; the model gives the requests it
    makes, in order, each with the sprite that the frame is for. *)

Inductive Sprite : Type :=
| _suitSprite
| _faceSprite
| _numSprite.

#[global] Instance Sprite_eq_dec : EqDecision Sprite.
Proof. solve_decision. Defined.

Definition kSuitNames : list string := ["club"; "diamond"; "heart"; "spade"].

Definition kFaceNumbers : list string :=
  ["A"; "2"; "3"; "4"; "5"; "6"; "7"; "8"; "9"; "10"; "J"; "Q"; "K"].

(** [${arr[i]}] in a template literal: the element at an index of the
    array, and the text [undefined] where the array has none. *)
Definition template_index (arr : list string) (i : Z) : string :=
  if bool_decide (0 ≤ i) then default "undefined" (arr !! Z.to_nat i)
  else "undefined".

(** The three flags tell whether [onLoad] found the sprite components. *)
Definition updateDisplay (suitSprite faceSprite numSprite : bool)
    (suit face : Z) : list (string * Sprite) :=
  if negb suitSprite || negb faceSprite || negb numSprite then []
  else
    let suitPath :=
      "suits/" +:+ template_index kSuitNames suit +:+ "/spriteFrame" in
    let color :=
      if bool_decide (suit = 1) || bool_decide (suit = 2)
      then "red" else "black" in
    let faceStr := template_index kFaceNumbers face in
    let bigFacePath :=
      "face/big_" +:+ color +:+ "_" +:+ faceStr +:+ "/spriteFrame" in
    let smallNumPath :=
      "face/small_" +:+ color +:+ "_" +:+ faceStr +:+ "/spriteFrame" in
    [(suitPath, _suitSprite); (bigFacePath, _faceSprite);
     (smallNumPath, _numSprite)].

(** ** Descriptions used in the statements on the rest of the code *)

(** The card that [loadData] builds from a layout entry. *)
Definition card_of (idCounter : Z) (a : string) (item : LayoutItem)
    : CardData :=
  new_CardData idCounter (CardFace item) (CardSuit item) a (Position item).

(** The cards of a layout, by increasing id: the main entries, then the
    stack entries, all stock but the last. *)
Definition loaded_cards (playfield stack : list LayoutItem) : list CardData :=
  imap (λ i, card_of (Z.of_nat i) "main") playfield
  ++ imap (λ j, card_of (Z.of_nat (length playfield + j))
                  (if bool_decide (j + 1 = length stack)%nat
                   then "discard" else "stock"))
          stack.

(** A card after [position.x += dx]. *)
Definition shifted (dx : Z) (card : CardData) : CardData :=
  place card (area card)
    {| x := x (position card) + dx; y := y (position card) |}.

(** The scene and the ledger go together: the keys of the ledger are the
    ids, every node shows a card of the ledger in the zone of its pile,
    every card has a node, and no pile holds a node twice. *)
Definition scene_synced (g : GameController) : Prop :=
  ledger_wf (_cards (_model g))
  ∧ scene_consistent g
  ∧ (∀ k card, _cards (_model g) !! k = Some card →
       ∃ p, area card = area_name p ∧ k ∈ children g p)
  ∧ (∀ p, NoDup (children g p)).

(** The states that clicks and undos lead to from a state. *)
Inductive plays (g0 : GameController) : GameController → Prop :=
| plays_here : plays g0 g0
| plays_click active intersects n g :
    plays g0 g → plays g0 (_onCardClick active intersects n g).2
| plays_undo g :
    plays g0 g → plays g0 (_onUndo g).

(** The node [d] is at the bottom of the discard pile and no record of
    the history names its card. *)
Definition discard_base (d : Z) (g : GameController) : Prop :=
  (∃ rest, discardPile g = d :: rest)
  ∧ ∀ r, r ∈ _history (_model g) → cardId r ≠ d.

(** [n] clicks on the undo button in a row. *)
Fixpoint onUndos (n : nat) (g : GameController) : GameController :=
  match n with
  | O => g
  | S n' => onUndos n' (_onUndo g)
  end.

(** Every record of the history names a card of the ledger. *)
Definition history_resolves (m : GameModel) : Prop :=
  ∀ r, r ∈ _history m → is_Some (_cards m !! cardId r).

(** ** The scenario: one main entry, two stack entries *)

Definition scenario_layout : Layout :=
  {| Playfield := Some [mkLayoutItem 3 0 (mkVec2 10 20)];
     Stack := Some [mkLayoutItem 7 1 (mkVec2 0 0);
                    mkLayoutItem 8 2 (mkVec2 5 0)] |}.

Definition scenario_model : GameModel :=
  (loadData scenario_layout new_GameModel).2.

Definition scenario_controller : GameController :=
  {| _model := scenario_model;
     mainCardArea := [0]; stockPile := [1]; discardPile := [2] |}.

(** ** Facts on the loading loops *)

Section load_loop.
(** The area given to the item at an index of the traversed array. *)
Variable area_at : Z → string.

#[local] Abbreviation step :=
  (λ (item : LayoutItem) (index : Z), load_item (area_at index) item).

Lemma forEach_load_counter arr index idCounter cards :
  (forEach step arr index (idCounter, cards)).1
  = idCounter + Z.of_nat (length arr).
Proof.
  revert index idCounter cards.
  induction arr as [|item rest IH]; intros index idCounter cards;
    cbn [forEach length load_item].
  - simpl. lia.
  - rewrite IH. lia.
Qed.

Lemma forEach_load_outside arr index idCounter cards k :
  k < idCounter ∨ idCounter + Z.of_nat (length arr) ≤ k →
  (forEach step arr index (idCounter, cards)).2 !! k = cards !! k.
Proof.
  revert index idCounter cards.
  induction arr as [|item rest IH]; intros index idCounter cards Hk;
    cbn [forEach length load_item] in *.
  - done.
  - rewrite IH by lia. apply lookup_insert_ne. simpl. lia.
Qed.

Lemma forEach_load_inside arr index idCounter cards n item :
  arr !! n = Some item →
  (forEach step arr index (idCounter, cards)).2 !! (idCounter + Z.of_nat n)
  = Some (new_CardData (idCounter + Z.of_nat n) (CardFace item)
            (CardSuit item) (area_at (index + Z.of_nat n)) (Position item)).
Proof.
  revert index idCounter cards n.
  induction arr as [|item' rest IH]; intros index idCounter cards n Hn.
  - done.
  - cbn [forEach load_item id]. destruct n as [|n].
    + injection Hn as ->. rewrite forEach_load_outside by lia.
      rewrite !Z.add_0_r. apply lookup_insert_eq.
    + simpl in Hn. specialize (IH (index + 1) (idCounter + 1)
        (<[idCounter := new_CardData idCounter (CardFace item')
             (CardSuit item') (area_at index) (Position item')]> cards)
        n Hn).
      replace (idCounter + Z.of_nat (S n)) with (idCounter + 1 + Z.of_nat n)
        by lia.
      replace (index + Z.of_nat (S n)) with (index + 1 + Z.of_nat n) by lia.
      exact IH.
Qed.

Lemma forEach_load_dom arr index idCounter cards :
  dom (forEach step arr index (idCounter, cards)).2
  = dom cards ∪ list_to_set (seqZ idCounter (Z.of_nat (length arr))).
Proof.
  apply set_eq. intros k.
  rewrite elem_of_union, elem_of_list_to_set, elem_of_seqZ, !elem_of_dom.
  destruct (decide (idCounter ≤ k < idCounter + Z.of_nat (length arr)))
    as [Hin|Hout].
  - destruct (lookup_lt_is_Some_2 arr (Z.to_nat (k - idCounter)))
      as [item Hitem]; [lia|].
    pose proof (forEach_load_inside arr index idCounter cards _ item Hitem)
      as Hk.
    replace (idCounter + Z.of_nat (Z.to_nat (k - idCounter))) with k in Hk
      by lia.
    rewrite Hk. split; eauto.
  - rewrite forEach_load_outside by lia. split; [by left|].
    intros [?|?]; [done|lia].
Qed.
End load_loop.

Lemma ledger_wf_empty : ledger_wf ∅.
Proof. intros k card Hk. by rewrite lookup_empty in Hk. Qed.

Lemma ledger_wf_place cards k card a p :
  ledger_wf cards → cards !! k = Some card →
  ledger_wf (<[k := place card a p]> cards).
Proof.
  intros Hwf Hk k' card'. rewrite lookup_insert.
  case_decide as Heq.
  - intros [= <-]. subst k'. simpl. by apply Hwf.
  - apply Hwf.
Qed.

(** C1. Load correctness: loading a layout with M main entries and S >= 1
    stack entries into a new model returns normally and leaves exactly
    M+S cards, whose ids are exactly 0..M+S-1; the card with id i < M is
    the i-th main entry with area main, the card with id M+j is the j-th
    stack entry, with area discard for the last one and stock for every
    other; each card has the face, suit and position of its entry.  The
    last stack entry exists, so the discard zone starts with one card. *)
Theorem loadData_correct (playfield stack : list LayoutItem) :
  stack ≠ [] →
  let M := length playfield in
  let S := length stack in
  let r := loadData (mkLayout (Some playfield) (Some stack)) new_GameModel in
  r.1 = Normal tt
  ∧ size (_cards r.2) = (M + S)%nat
  ∧ (∀ k, is_Some (_cards r.2 !! k) ↔ 0 ≤ k < Z.of_nat (M + S))
  ∧ (∀ k card, _cards r.2 !! k = Some card → id card = k)
  ∧ (∀ i item, playfield !! i = Some item →
       _cards r.2 !! Z.of_nat i
       = Some (new_CardData (Z.of_nat i) (CardFace item) (CardSuit item)
                 "main" (Position item)))
  ∧ (∀ j item, stack !! j = Some item → (j + 1)%nat = S →
       _cards r.2 !! Z.of_nat (M + j)
       = Some (new_CardData (Z.of_nat (M + j)) (CardFace item) (CardSuit item)
                 "discard" (Position item)))
  ∧ (∀ j item, stack !! j = Some item → (j + 1)%nat ≠ S →
       _cards r.2 !! Z.of_nat (M + j)
       = Some (new_CardData (Z.of_nat (M + j)) (CardFace item) (CardSuit item)
                 "stock" (Position item)))
  ∧ (∃ item, last stack = Some item
       ∧ _cards r.2 !! (Z.of_nat (M + S) - 1)
         = Some (new_CardData (Z.of_nat (M + S) - 1) (CardFace item)
                   (CardSuit item) "discard" (Position item))).
Proof.
  intros Hne M S r.
  set (s1 := forEach (λ item (_ : Z), load_item "main" item) playfield 0
               (0, ∅ : gmap Z CardData)).
  set (ar := λ index : Z, stack_area index (length stack)).
  assert (Hr : r = (Normal tt,
            {| _cards := (forEach (λ item index, load_item (ar index) item)
                            stack 0 s1).2;
               _history := [] |})) by reflexivity.
  assert (Hs1 : s1 = (Z.of_nat M, s1.2)).
  { rewrite (surjective_pairing s1) at 1. f_equal.
    unfold s1. rewrite (forEach_load_counter (λ _, "main")). lia. }
  assert (Hdom : dom (_cards r.2)
                 = list_to_set (seqZ 0 (Z.of_nat (M + S)))).
  { rewrite Hr; simpl. rewrite Hs1. rewrite (forEach_load_dom ar).
    unfold s1; simpl. rewrite (forEach_load_dom (λ _, "main")).
    rewrite dom_empty_L, (left_id_L ∅ (∪)).
    rewrite Nat2Z.inj_add, seqZ_app by lia.
    by rewrite list_to_set_app_L. }
  assert (Hstack : ∀ j item, stack !! j = Some item →
            _cards r.2 !! Z.of_nat (M + j)
            = Some (new_CardData (Z.of_nat (M + j)) (CardFace item)
                      (CardSuit item) (ar (Z.of_nat j)) (Position item))).
  { intros j item Hj. rewrite Hr; simpl. rewrite Hs1.
    rewrite Nat2Z.inj_add.
    by rewrite (forEach_load_inside ar _ _ _ _ _ _ Hj). }
  assert (Hmain : ∀ i item, playfield !! i = Some item →
            _cards r.2 !! Z.of_nat i
            = Some (new_CardData (Z.of_nat i) (CardFace item) (CardSuit item)
                      "main" (Position item))).
  { intros i item Hi. rewrite Hr; simpl. rewrite Hs1.
    apply lookup_lt_Some in Hi as Hlt.
    rewrite (forEach_load_outside ar) by (fold M; lia).
    unfold s1.
    exact (forEach_load_inside (λ _, "main") _ 0 0 ∅ _ _ Hi). }
  assert (Hrange : ∀ k, is_Some (_cards r.2 !! k) ↔ 0 ≤ k < Z.of_nat (M + S)).
  { intros k.
    rewrite <- elem_of_dom, Hdom, elem_of_list_to_set, elem_of_seqZ. lia. }
  assert (Hdiscard : ∀ j item, stack !! j = Some item → (j + 1)%nat = S →
            _cards r.2 !! Z.of_nat (M + j)
            = Some (new_CardData (Z.of_nat (M + j)) (CardFace item)
                      (CardSuit item) "discard" (Position item))).
  { intros j item Hj Hlast. rewrite (Hstack j item Hj). do 2 f_equal.
    unfold ar, stack_area. rewrite bool_decide_eq_true_2; [done|].
    fold S. lia. }
  split; [done|].
  split; [|split; [done|split; [|split; [done|split; [done|split]]]]].
  - rewrite <- size_dom, Hdom, size_list_to_set by apply NoDup_seqZ.
    rewrite length_seqZ. lia.
  - intros k card Hk.
    assert (Hin : 0 ≤ k < Z.of_nat (M + S)) by (apply Hrange; eauto).
    destruct (decide (k < Z.of_nat M)) as [Hlt|Hge].
    + destruct (lookup_lt_is_Some_2 playfield (Z.to_nat k)) as [item Hitem];
        [fold M; lia|].
      apply Hmain in Hitem. rewrite Z2Nat.id in Hitem by lia.
      rewrite Hitem in Hk. by injection Hk as <-.
    + destruct (lookup_lt_is_Some_2 stack (Z.to_nat (k - Z.of_nat M)))
        as [item Hitem]; [fold S; lia|].
      apply Hstack in Hitem.
      replace (Z.of_nat (M + Z.to_nat (k - Z.of_nat M))) with k in Hitem
        by lia.
      rewrite Hitem in Hk. by injection Hk as <-.
  - intros j item Hj Hlast. rewrite (Hstack j item Hj). do 2 f_equal.
    unfold ar, stack_area. rewrite bool_decide_eq_false_2; [done|]. fold S. lia.
  - destruct (last stack) as [item|] eqn:Hitem;
      [|by apply last_None in Hitem].
    exists item. split; [done|]. rewrite last_lookup in Hitem.
    apply lookup_lt_Some in Hitem as Hlt. fold S in Hitem, Hlt.
    replace (Z.of_nat (M + S) - 1) with (Z.of_nat (M + pred S)) by lia.
    apply Hdiscard; [done|lia].
Qed.

Lemma loadData_correct_witness :
  let r := loadData scenario_layout new_GameModel in
  [mkLayoutItem 7 1 (mkVec2 0 0); mkLayoutItem 8 2 (mkVec2 5 0)] ≠ []
  ∧ r.1 = Normal tt
  ∧ size (_cards r.2) = 3%nat
  ∧ _cards r.2 !! 0 = Some (new_CardData 0 3 0 "main" (mkVec2 10 20))
  ∧ _cards r.2 !! 1 = Some (new_CardData 1 7 1 "stock" (mkVec2 0 0))
  ∧ _cards r.2 !! 2 = Some (new_CardData 2 8 2 "discard" (mkVec2 5 0)).
Proof.
  destruct (loadData_correct
              [mkLayoutItem 3 0 (mkVec2 10 20)]
              [mkLayoutItem 7 1 (mkVec2 0 0); mkLayoutItem 8 2 (mkVec2 5 0)])
    as (Hn & Hsize & _ & _ & Hmain & Hlast & Hother & _); [done|].
  split; [done|]. split; [exact Hn|]. split; [exact Hsize|]. split; [|split].
  - exact (Hmain 0%nat _ eq_refl).
  - exact (Hother 0%nat _ eq_refl ltac:(simpl; lia)).
  - exact (Hlast 1%nat _ eq_refl eq_refl).
Defined.

(** ** A layout without its lists *)

(** C8, refuted: on a layout with a main list and no stack list, [loadData]
    raises a [TypeError]. *)
Lemma loadData_absent_list_raises :
  ¬ loads_silently
      {| Playfield := Some [mkLayoutItem 3 0 (mkVec2 10 20)]; Stack := None |}
      new_GameModel.
Proof.
  unfold loads_silently. intros Hsilent.
  specialize (Hsilent (or_intror eq_refl)). discriminate Hsilent.
Qed.

(** C8, amended. On a layout that lacks a list, [loadData] raises a
    [TypeError] and leaves the history as it is.  When the main list is
    absent the model is unchanged, so no card is created; when only the
    stack list is absent, the entries of the main list have been loaded
    before the error, as main cards with the ids from 0 on, and no other
    card has changed. *)
Theorem loadData_malformed (jsonData : Layout) (m : GameModel) :
  Playfield jsonData = None ∨ Stack jsonData = None →
  (loadData jsonData m).1 = TypeError
  ∧ _history (loadData jsonData m).2 = _history m
  ∧ (Playfield jsonData = None → (loadData jsonData m).2 = m)
  ∧ (∀ playfield, Playfield jsonData = Some playfield →
       (∀ i item, playfield !! i = Some item →
          getCardById (loadData jsonData m).2 (Z.of_nat i)
          = Some (new_CardData (Z.of_nat i) (CardFace item) (CardSuit item)
                    "main" (Position item)))
       ∧ (∀ k, k < 0 ∨ Z.of_nat (length playfield) ≤ k →
            getCardById (loadData jsonData m).2 k = getCardById m k)).
Proof.
  intros Hmal. unfold loadData, getCardById.
  destruct (Playfield jsonData) as [playfield|] eqn:Hplay.
  - destruct Hmal as [Hmal|Hmal]; [done|]. rewrite Hmal.
    cbn [fst snd _cards _history].
    split; [done|]. split; [done|]. split; [done|].
    intros ? [= <-]. split.
    + intros i item Hi.
      exact (forEach_load_inside (λ _, "main") _ 0 0 _ _ _ Hi).
    + intros k Hk.
      apply (forEach_load_outside (λ _, "main")). lia.
  - by repeat split.
Qed.

Lemma loadData_malformed_witness :
  let jsonData :=
    {| Playfield := Some [mkLayoutItem 3 0 (mkVec2 10 20)]; Stack := None |} in
  (Playfield jsonData = None ∨ Stack jsonData = None)
  ∧ (loadData jsonData new_GameModel).1 = TypeError
  ∧ getCardById (loadData jsonData new_GameModel).2 0
    = Some (new_CardData 0 3 0 "main" (mkVec2 10 20)).
Proof.
  intros jsonData.
  assert (Hmal : Playfield jsonData = None ∨ Stack jsonData = None)
    by (right; reflexivity).
  destruct (loadData_malformed jsonData new_GameModel Hmal)
    as (Hraise & _ & _ & Hmain).
  split; [exact Hmal|]. split; [exact Hraise|].
  exact (proj1 (Hmain _ eq_refl) 0%nat _ eq_refl).
Defined.

(** ** The ledger keeps its keys equal to the ids *)

Lemma loadData_wf jsonData m :
  ledger_wf (_cards m) → ledger_wf (_cards (loadData jsonData m).2).
Proof.
  assert (Hloop : ∀ (area_at : Z → string) arr index idCounter cards,
            ledger_wf cards →
            ledger_wf (forEach (λ item index, load_item (area_at index) item)
                         arr index (idCounter, cards)).2).
  { intros area_at arr. induction arr as [|item rest IH];
      intros index idCounter cards Hwf; cbn [forEach load_item id].
    - done.
    - apply IH. intros k card. rewrite lookup_insert.
      case_decide; [by intros [= <-]|apply Hwf]. }
  intros Hwf. unfold loadData.
  destruct (Playfield jsonData) as [playfield|]; [|done].
  pose proof (Hloop (λ _, "main") playfield 0 0 _ Hwf) as Hmain.
  destruct (Stack jsonData) as [stack|]; [|done].
  cbn [snd _cards].
  destruct (forEach _ playfield 0 (0, _cards m)) as [idCounter cards].
  by apply (Hloop (λ index, stack_area index (length stack))).
Qed.

Lemma moveCard_wf k a p m :
  ledger_wf (_cards m) → ledger_wf (_cards (moveCard k a p m).2).
Proof.
  intros Hwf. unfold moveCard.
  destruct (_cards m !! k) as [card|] eqn:Hk; [|done].
  by apply ledger_wf_place.
Qed.

Lemma undo_wf m :
  ledger_wf (_cards m) → ledger_wf (_cards (undo m).2).
Proof.
  intros Hwf. unfold undo.
  destruct (pop (_history m)) as [[last history]|]; [|done].
  destruct (_cards m !! cardId last) as [card|] eqn:Hk; [|done].
  by apply ledger_wf_place.
Qed.

Create HintDb ledger discriminated.

#[local] Hint Resolve ledger_wf_empty loadData_wf moveCard_wf undo_wf : ledger.

Lemma reachable_wf m : reachable m → ledger_wf (_cards m).
Proof. induction 1; auto with ledger. Qed.

(** ** The history is a stack *)

Lemma pop_snoc {A : Type} (arr : list A) (a : A) :
  pop (arr ++ [a]) = Some (a, arr).
Proof.
  induction arr as [|b arr IH]; [done|].
  simpl. by rewrite IH.
Qed.

Lemma pop_None {A : Type} (arr : list A) : pop arr = None ↔ arr = [].
Proof.
  split; [|by intros ->].
  destruct arr as [|a arr]; [done|].
  simpl. by destruct (pop arr) as [[? ?]|].
Qed.

Lemma pop_Some {A : Type} (arr rest : list A) (a : A) :
  pop arr = Some (a, rest) → arr = (rest ++ [a])%list.
Proof.
  revert rest. induction arr as [|b arr IH]; intros rest; [done|].
  simpl. destruct (pop arr) as [[last rest']|] eqn:Hpop.
  - intros [= -> <-]. by rewrite (IH rest').
  - intros [= -> <-]. apply pop_None in Hpop. by subst arr.
Qed.

Lemma place_back card a p :
  place (place card a p) (area card)
    {| x := x (position card); y := y (position card) |} = card.
Proof. by destruct card as [? ? ? ? []]. Qed.

(** A successful move followed by one undo leaves the model as it was. *)
Lemma undo_moveCard k a p m :
  ledger_wf (_cards m) → (moveCard k a p m).1 = true →
  (undo (moveCard k a p m).2).2 = m.
Proof.
  intros Hwf. unfold moveCard.
  destruct (_cards m !! k) as [card|] eqn:Hk; [intros _|done].
  unfold undo; cbn [snd _cards _history].
  rewrite pop_snoc; cbn [cardId oldArea oldPos].
  rewrite (Hwf _ _ Hk), lookup_insert_eq; cbn [snd].
  rewrite place_back, insert_insert_eq, (insert_id _ _ _ Hk).
  by destruct m.
Qed.

Lemma undos_snoc n m : undos (S n) m = (undo (undos n m)).2.
Proof.
  revert m. induction n as [|n IH]; intros m; [done|].
  change (undos (S (S n)) m) with (undos (S n) (undo m).2).
  by rewrite IH.
Qed.

Lemma undos_moveCards moves m :
  ledger_wf (_cards m) → (moveCards moves m).1 = true →
  undos (length moves) (moveCards moves m).2 = m.
Proof.
  revert m. induction moves as [|[[k a] p] rest IH]; intros m Hwf Hok; [done|].
  cbn [moveCards length] in *.
  destruct (moveCard k a p m) as [success m1] eqn:Hmove.
  destruct (moveCards rest m1) as [successes m2] eqn:Hrest.
  cbn [fst snd] in *. apply andb_true_iff in Hok as [-> ->].
  rewrite undos_snoc.
  assert (Hwf1 : ledger_wf (_cards m1)).
  { replace m1 with (moveCard k a p m).2 by by rewrite Hmove.
    by apply moveCard_wf. }
  specialize (IH m1 Hwf1). rewrite Hrest in IH. cbn [fst snd] in IH.
  rewrite IH by done.
  replace m1 with (moveCard k a p m).2 by by rewrite Hmove.
  apply undo_moveCard; [done|by rewrite Hmove].
Qed.

(** C2. Move/undo inverse law: from a ledger whose keys are its card ids
    (as [loadData] builds it and every method keeps it), n successful
    moves followed by n undos give back the model: every card has the
    zone and the position it had, and the history has the length it had,
    so it is empty if it was. *)
Theorem move_undo_inverse (moves : list (Z * string * Vec2)) (m : GameModel) :
  ledger_wf (_cards m) →
  (moveCards moves m).1 = true →
  let m' := undos (length moves) (moveCards moves m).2 in
  (∀ k, placement m' k = placement m k)
  ∧ _cards m' = _cards m
  ∧ length (_history m') = length (_history m)
  ∧ (_history m = [] → _history m' = []).
Proof.
  intros Hwf Hok m'. unfold m'. by rewrite undos_moveCards.
Qed.

Lemma move_undo_inverse_witness :
  let moves := [(1, "discard", mkVec2 0 0); (0, "discard", mkVec2 0 0)] in
  let m' := undos 2 (moveCards moves scenario_model).2 in
  ledger_wf (_cards scenario_model)
  ∧ (moveCards moves scenario_model).1 = true
  ∧ placement m' 0 = Some ("main", mkVec2 10 20)
  ∧ placement m' 1 = Some ("stock", mkVec2 0 0)
  ∧ _history m' = [].
Proof.
  assert (Hwf : ledger_wf (_cards scenario_model)).
  { apply reachable_wf, reachable_loadData, reachable_new. }
  assert (Hok : (moveCards [(1, "discard", mkVec2 0 0);
                            (0, "discard", mkVec2 0 0)] scenario_model).1
                = true) by (vm_compute; reflexivity).
  destruct (move_undo_inverse _ _ Hwf Hok) as (Hplace & _ & _ & Hhist).
  split; [exact Hwf|]. split; [exact Hok|]. split; [|split].
  - transitivity (placement scenario_model 0);
      [exact (Hplace 0)|vm_compute; reflexivity].
  - transitivity (placement scenario_model 1);
      [exact (Hplace 1)|vm_compute; reflexivity].
  - apply Hhist. reflexivity.
Defined.

(** C5. Move atomicity on a missing id: if no card has the id, [moveCard]
    returns [false] and the model is the one before the call: no record is
    pushed and no card changes. *)
Theorem moveCard_missing (m : GameModel) (k : Z) (targetArea : string)
    (targetPos : Vec2) :
  getCardById m k = None →
  (moveCard k targetArea targetPos m).1 = false
  ∧ _history (moveCard k targetArea targetPos m).2 = _history m
  ∧ _cards (moveCard k targetArea targetPos m).2 = _cards m
  ∧ (moveCard k targetArea targetPos m).2 = m.
Proof.
  unfold getCardById, moveCard. by intros ->.
Qed.

Lemma moveCard_missing_witness :
  getCardById scenario_model 7 = None
  ∧ moveCard 7 "discard" (mkVec2 0 0) scenario_model = (false, scenario_model).
Proof.
  assert (Hk : getCardById scenario_model 7 = None)
    by (vm_compute; reflexivity).
  split; [exact Hk|].
  destruct (moveCard_missing scenario_model 7 "discard" (mkVec2 0 0) Hk)
    as (Hfalse & _ & _ & Hsame).
  rewrite (surjective_pairing (moveCard _ _ _ _)). by rewrite Hfalse, Hsame.
Defined.

(** C6. Undo on an empty history: [undo] returns [null] and leaves the
    model as it is, cards and empty history alike; so does every further
    call, however many came before. *)
Theorem undo_empty_history (m : GameModel) :
  _history m = [] →
  undo m = (None, m)
  ∧ (∀ k, placement (undo m).2 k = placement m k)
  ∧ _history (undo m).2 = []
  ∧ (∀ n, undos n m = m ∧ undo (undos n m) = (None, m)).
Proof.
  intros Hempty.
  assert (Hundo : undo m = (None, m)) by (unfold undo; by rewrite Hempty).
  assert (Hundos : ∀ n, undos n m = m).
  { induction n as [|n IH]; [done|]. by rewrite undos_snoc, IH, Hundo. }
  rewrite Hundo. split; [done|]. split; [done|]. split; [done|].
  intros n. by rewrite Hundos.
Qed.

Lemma undo_empty_history_witness :
  _history scenario_model = []
  ∧ undo scenario_model = (None, scenario_model)
  ∧ undos 3 scenario_model = scenario_model.
Proof.
  assert (Hempty : _history scenario_model = []) by reflexivity.
  destruct (undo_empty_history scenario_model Hempty) as (Hundo & _ & _ & Hn).
  split; [exact Hempty|]. split; [exact Hundo|]. exact (proj1 (Hn 3%nat)).
Defined.

(** C7. Undo restoration: when the history is not empty, [undo] takes
    off its last record, the one pushed most recently, returns it and
    leaves the records before it.  If the ledger has a card under the id
    of the record, that card gets the zone and the position of the record,
    keeps its id, face and suit, and no other card changes; if it has
    none, no card changes. *)
Theorem undo_restores (m : GameModel) :
  _history m ≠ [] →
  ∃ history last,
    _history m = (history ++ [last])%list
    ∧ (undo m).1 = Some last
    ∧ _history (undo m).2 = history
    ∧ (∀ card, getCardById m (cardId last) = Some card →
         getCardById (undo m).2 (cardId last)
         = Some (new_CardData (id card) (face card) (suit card)
                   (oldArea last) (oldPos last))
         ∧ ∀ k, k ≠ cardId last →
             getCardById (undo m).2 k = getCardById m k)
    ∧ (getCardById m (cardId last) = None → _cards (undo m).2 = _cards m).
Proof.
  intros Hne.
  destruct (pop (_history m)) as [[last history]|] eqn:Hpop;
    [|by apply pop_None in Hpop].
  exists history, last. split; [by apply pop_Some|].
  unfold getCardById, undo. rewrite Hpop.
  destruct (_cards m !! cardId last) as [card|] eqn:Hk;
    cbn [fst snd _cards _history];
    (split; [done|]); (split; [done|]); split; try done.
  intros card' [= <-]. split.
  - by rewrite lookup_insert_eq.
  - intros k Hk'. by rewrite lookup_insert_ne.
Qed.

Lemma undo_restores_witness :
  let m := (moveCard 1 "discard" (mkVec2 0 0) scenario_model).2 in
  _history m ≠ []
  ∧ (undo m).1 = Some (mkMoveRecord 1 "stock" (mkVec2 0 0))
  ∧ _history (undo m).2 = []
  ∧ getCardById (undo m).2 1
    = Some (new_CardData 1 7 1 "stock" (mkVec2 0 0)).
Proof.
  intros m.
  assert (Hne : _history m ≠ []) by (vm_compute; discriminate).
  destruct (undo_restores m Hne)
    as (history & last & Hhist & Hret & Hrest & Hcard & _).
  assert (Hsnoc : _history m = [mkMoveRecord 1 "stock" (mkVec2 0 0)])
    by (vm_compute; reflexivity).
  rewrite Hsnoc in Hhist.
  destruct history as [|r history]; [|by destruct history].
  injection Hhist as <-.
  split; [exact Hne|]. split; [exact Hret|]. split; [exact Hrest|].
  apply (Hcard (new_CardData 1 7 1 "discard" (mkVec2 0 0))).
  vm_compute; reflexivity.
Defined.

Lemma step_op_identity op m k :
  identity <$> _cards (step_op op m) !! k = identity <$> _cards m !! k.
Proof.
  destruct op as [k' a p|]; cbn [step_op].
  - unfold moveCard. destruct (_cards m !! k') as [card|] eqn:Hk; [|done].
    cbn [snd _cards]. rewrite lookup_insert. case_decide; [|done].
    subst k'. by rewrite Hk.
  - unfold undo. destruct (pop (_history m)) as [[last history]|]; [|done].
    destruct (_cards m !! cardId last) as [card|] eqn:Hk; [|done].
    cbn [snd _cards]. rewrite lookup_insert. case_decide as Heq; [|done].
    rewrite <- Heq. by rewrite Hk.
Qed.

Lemma run_identity ops m k :
  identity <$> _cards (run ops m) !! k = identity <$> _cards m !! k.
Proof.
  revert m. induction ops as [|op rest IH]; intros m; [done|].
  cbn [run]. by rewrite IH, step_op_identity.
Qed.

(** C9. Immutable identity: whatever moves and undos are run, with
    whatever arguments, the ledger has the same set of card ids, and the
    card under each id has the id, the face and the suit it had; a ledger
    whose keys are the ids of its cards stays so. *)
Theorem identity_immutable (ops : list Op) (m : GameModel) :
  dom (_cards (run ops m)) = dom (_cards m)
  ∧ (∀ k card, getCardById m k = Some card →
       ∃ card', getCardById (run ops m) k = Some card'
                ∧ id card' = id card
                ∧ face card' = face card
                ∧ suit card' = suit card)
  ∧ (ledger_wf (_cards m) → ledger_wf (_cards (run ops m))).
Proof.
  split; [|split].
  - apply set_eq. intros k. rewrite !elem_of_dom.
    pose proof (run_identity ops m k) as Hk.
    destruct (_cards (run ops m) !! k), (_cards m !! k);
      try discriminate Hk; split; intros [? ?]; try done; eauto.
  - unfold getCardById. intros k card Hcard.
    pose proof (run_identity ops m k) as Hk. rewrite Hcard in Hk.
    destruct (_cards (run ops m) !! k) as [card'|]; [|done].
    injection Hk as Hid Hface Hsuit. eauto.
  - revert m. induction ops as [|op rest IH]; intros m Hwf; [done|].
    cbn [run]. apply IH. destruct op; cbn [step_op].
    + by apply moveCard_wf.
    + by apply undo_wf.
Qed.

Lemma identity_immutable_witness :
  let ops := [OpMove 1 "discard" (mkVec2 0 0); OpUndo; OpUndo;
              OpMove 0 "elsewhere" (mkVec2 4 4)] in
  getCardById scenario_model 0
  = Some (new_CardData 0 3 0 "main" (mkVec2 10 20))
  ∧ ∃ card', getCardById (run ops scenario_model) 0 = Some card'
             ∧ id card' = 0 ∧ face card' = 3 ∧ suit card' = 0.
Proof.
  assert (Hcard : getCardById scenario_model 0
                  = Some (new_CardData 0 3 0 "main" (mkVec2 10 20)))
    by (vm_compute; reflexivity).
  split; [exact Hcard|].
  exact (proj1 (proj2 (identity_immutable
    [OpMove 1 "discard" (mkVec2 0 0); OpUndo; OpUndo;
     OpMove 0 "elsewhere" (mkVec2 4 4)] scenario_model)) 0 _ Hcard).
Defined.

(** C10. No validation of the target zone: for a card in the ledger,
    [moveCard] returns [true] whatever string the target zone is, and the
    card then has exactly that string as its zone and the given position;
    so a zone other than main, stock and discard is accepted. *)
Theorem moveCard_any_zone (m : GameModel) (k : Z) (card : CardData)
    (targetArea : string) (targetPos : Vec2) :
  getCardById m k = Some card →
  (moveCard k targetArea targetPos m).1 = true
  ∧ getCardById (moveCard k targetArea targetPos m).2 k
    = Some (new_CardData (id card) (face card) (suit card)
              targetArea targetPos)
  ∧ (targetArea ∉ ["main"; "stock"; "discard"] →
     ∃ card', getCardById (moveCard k targetArea targetPos m).2 k = Some card'
              ∧ area card' ≠ "main" ∧ area card' ≠ "stock"
              ∧ area card' ≠ "discard").
Proof.
  unfold getCardById, moveCard. intros ->. cbn [fst snd _cards].
  rewrite lookup_insert_eq. split; [done|]. split; [done|].
  intros Hout. eexists; split; [done|]. cbn [place area].
  repeat split; intros ->; apply Hout; set_solver.
Qed.

Lemma moveCard_any_zone_witness :
  getCardById scenario_model 0
  = Some (new_CardData 0 3 0 "main" (mkVec2 10 20))
  ∧ (moveCard 0 "limbo" (mkVec2 1 2) scenario_model).1 = true
  ∧ getCardById (moveCard 0 "limbo" (mkVec2 1 2) scenario_model).2 0
    = Some (new_CardData 0 3 0 "limbo" (mkVec2 1 2)).
Proof.
  assert (Hcard : getCardById scenario_model 0
                  = Some (new_CardData 0 3 0 "main" (mkVec2 10 20)))
    by (vm_compute; reflexivity).
  destruct (moveCard_any_zone scenario_model 0 _ "limbo" (mkVec2 1 2) Hcard)
    as (Hok & Hzone & _).
  split; [exact Hcard|]. split; [exact Hok|exact Hzone].
Defined.

(** ** The scene and the ledger *)

Lemma area_name_inj p q : area_name p = area_name q → p = q.
Proof. by destruct p, q. Qed.

Lemma getNodeForArea_Some a p : _getNodeForArea a = Some p → a = area_name p.
Proof.
  unfold _getNodeForArea. repeat case_bool_decide; naive_solver.
Qed.

Lemma getNodeForArea_area_name p : _getNodeForArea (area_name p) = Some p.
Proof. by destruct p. Qed.

Lemma scene_consistent_tree g : scene_consistent g → scene_tree g.
Proof.
  intros Hg p q n Hp Hq.
  destruct (Hg p n Hp) as (card & Hcard & Harea).
  destruct (Hg q n Hq) as (card' & Hcard' & Harea').
  apply area_name_inj. congruence.
Qed.

Lemma parent_Some g n p : parent g n = Some p → n ∈ children g p.
Proof.
  unfold parent. repeat case_bool_decide; naive_solver.
Qed.

Lemma parent_None g n : parent g n = None → ∀ p, n ∉ children g p.
Proof.
  unfold parent. repeat case_bool_decide; try done. by intros _ [].
Qed.

Lemma parent_child g n p : scene_tree g → n ∈ children g p → parent g n = Some p.
Proof.
  intros Htree Hin. destruct (parent g n) as [q|] eqn:Hq.
  - f_equal. apply (Htree q p n); [by apply parent_Some|done].
  - by apply parent_None with (p := p) in Hq.
Qed.

Lemma children_set_children p l g q :
  children (set_children p l g) q = if decide (q = p) then l else children g q.
Proof. by destruct p, q. Qed.

Lemma model_set_children p l g : _model (set_children p l g) = _model g.
Proof. by destruct p. Qed.

Lemma set_model_same g : set_model (_model g) g = g.
Proof. by destruct g. Qed.

Lemma removeFromParent_children g n q n' :
  scene_tree g →
  n' ∈ children (removeFromParent n g) q ↔ n' ≠ n ∧ n' ∈ children g q.
Proof.
  intros Htree. unfold removeFromParent.
  destruct (parent g n) as [p|] eqn:Hp.
  - apply parent_Some in Hp. rewrite children_set_children.
    case_decide as Hq.
    + subst q. by rewrite list_elem_of_filter.
    + split; [|by intros [_ ?]]. intros Hin. split; [|done].
      intros ->. by apply Hq, (Htree q p n).
  - split; [|by intros [_ ?]]. intros Hin. split; [|done].
    intros ->. by apply (parent_None _ _ Hp q).
Qed.

Lemma model_removeFromParent n g : _model (removeFromParent n g) = _model g.
Proof.
  unfold removeFromParent. destruct (parent g n); [|done].
  apply model_set_children.
Qed.

Lemma setParent_children g p n q n' :
  scene_tree g →
  n' ∈ children (setParent p n g) q
  ↔ (n' = n ∧ q = p) ∨ (n' ≠ n ∧ n' ∈ children g q).
Proof.
  intros Htree. unfold setParent. rewrite children_set_children.
  case_decide as Hq.
  - subst q. rewrite elem_of_app, list_elem_of_singleton.
    rewrite removeFromParent_children by done.
    destruct (decide (n' = n)); tauto.
  - rewrite removeFromParent_children by done. tauto.
Qed.

Lemma model_setParent p n g : _model (setParent p n g) = _model g.
Proof.
  unfold setParent. by rewrite model_set_children, model_removeFromParent.
Qed.

Lemma setParent_top p n g : last (children (setParent p n g) p) = Some n.
Proof.
  unfold setParent. rewrite children_set_children, decide_True by done.
  apply last_snoc.
Qed.

(** The model after [_moveCardToDiscard] is the model after [moveCard]. *)
Lemma moveCardToDiscard_model n g :
  _model (_moveCardToDiscard n g)
  = (moveCard n "discard" {| x := 0; y := 0 |} (_model g)).2.
Proof.
  unfold _moveCardToDiscard.
  destruct (moveCard n "discard" _ (_model g)) as [success model] eqn:Hmove.
  destruct success.
  - destruct (parent g n); [by rewrite model_setParent|done].
  - unfold moveCard in Hmove. destruct (_cards (_model g) !! n); [done|].
    by injection Hmove as <-.
Qed.

Lemma isMatch_total g cardId :
  scene_consistent g → ∃ b, isMatch g cardId = Normal b.
Proof.
  intros Hg. unfold isMatch, getCardById.
  destruct (last (discardPile g)) as [topNode|] eqn:Htop; [|eauto].
  apply last_Some_elem_of in Htop.
  destruct (Hg DiscardPile topNode Htop) as (topCard & -> & _).
  destruct (_cards (_model g) !! cardId); eauto.
Qed.

Lemma scenario_consistent : scene_consistent scenario_controller.
Proof.
  intros p n Hn.
  destruct p; apply list_elem_of_singleton in Hn as ->; eexists;
    (split; [vm_compute; reflexivity|reflexivity]).
Qed.

(** ** Clicks and undos keep the scene and the ledger together *)

Lemma children_set_model m g p : children (set_model m g) p = children g p.
Proof. by destruct p. Qed.

Lemma scene_tree_set_model m g : scene_tree g → scene_tree (set_model m g).
Proof. intros Htree p q n. rewrite !children_set_model. apply Htree. Qed.

Lemma parent_set_model m g n : parent (set_model m g) n = parent g n.
Proof. done. Qed.

(** Moving the node [n] to the pile [p] while the ledger puts the card
    under [n] in the area of [p]. *)
Lemma setParent_consistent g m p n card :
  scene_consistent g →
  _cards m = <[n := card]> (_cards (_model g)) →
  area card = area_name p →
  scene_consistent (setParent p n (set_model m g)).
Proof.
  intros Hg Hcards Harea q n' Hin.
  apply setParent_children in Hin;
    [|by apply scene_tree_set_model, scene_consistent_tree].
  rewrite model_setParent. cbn [set_model _model]. rewrite Hcards.
  destruct Hin as [[-> ->]|[Hne Hin]].
  - exists card. by rewrite lookup_insert_eq.
  - rewrite children_set_model in Hin. rewrite lookup_insert_ne by done.
    by apply Hg.
Qed.

Lemma moveCardToDiscard_inv g n p :
  controller_inv g → parent g n = Some p →
  controller_inv (_moveCardToDiscard n g).
Proof.
  intros [Hg Hh] Hp.
  destruct (Hg p n (parent_Some _ _ _ Hp)) as (card & Hcard & Harea).
  unfold _moveCardToDiscard, moveCard. rewrite Hcard, Hp. split.
  - by apply setParent_consistent with (card := place card "discard" (mkVec2 0 0)).
  - intros r. rewrite model_setParent. cbn [set_model _model _history].
    rewrite elem_of_app, list_elem_of_singleton. intros [Hr| ->].
    + by apply Hh.
    + cbn [oldArea]. rewrite Harea, getNodeForArea_area_name. eauto.
Qed.

Lemma onCardClick_inv active intersects n g :
  controller_inv g →
  (_onCardClick active intersects n g).1 = Normal tt
  ∧ controller_inv (_onCardClick active intersects n g).2.
Proof.
  intros Hinv. unfold _onCardClick.
  destruct (_isCovered active intersects g n); [done|].
  destruct (parent g n) as [[]|] eqn:Hp; try done.
  - destruct (isMatch_total g n (proj1 Hinv)) as [[] ->]; [|done].
    split; [done|]. by apply moveCardToDiscard_inv with (p := MainCardArea).
  - split; [done|]. by apply moveCardToDiscard_inv with (p := StockPile).
Qed.

Lemma onUndo_inv g : controller_inv g → controller_inv (_onUndo g).
Proof.
  intros [Hg Hh]. unfold _onUndo, undo.
  destruct (pop (_history (_model g))) as [[last history]|] eqn:Hpop;
    [|by rewrite set_model_same].
  apply pop_Some in Hpop.
  assert (Hh' : ∀ m, _history m = history →
                  history_areas (set_model m g)).
  { intros m Hm r. cbn [set_model _model]. rewrite Hm. intros Hr.
    apply Hh. rewrite Hpop, elem_of_app. by left. }
  destruct (Hh last) as [p Hlast];
    [rewrite Hpop, elem_of_app, list_elem_of_singleton; by right|].
  destruct (_cards (_model g) !! cardId last) as [card|] eqn:Hcard.
  - rewrite parent_set_model.
    destruct (parent g (cardId last)) as [q|] eqn:Hq.
    + rewrite Hlast. split.
      * apply setParent_consistent
          with (card := place card (oldArea last) (oldPos last));
          [done|done|]. by apply getNodeForArea_Some.
      * intros r. rewrite model_setParent. by apply Hh'.
    + split; [|by apply Hh'].
      intros q n Hn. rewrite children_set_model in Hn.
      cbn [set_model _model _cards]. rewrite lookup_insert_ne; [by apply Hg|].
      intros <-. by apply (parent_None _ _ Hq q).
  - rewrite parent_set_model.
    destruct (parent g (cardId last)) as [q|] eqn:Hq.
    + apply parent_Some in Hq. destruct (Hg _ _ Hq) as (card & Hsome & _).
      congruence.
    + split; [|by apply Hh'].
      intros q n Hn. rewrite children_set_model in Hn. by apply Hg.
Qed.

(** ** Starting a game *)

Lemma same_areas_lookup cards cards' k card :
  same_areas cards cards' → cards !! k = Some card →
  ∃ card', cards' !! k = Some card'
           ∧ id card' = id card ∧ area card' = area card.
Proof.
  intros Hsame Hk. specialize (Hsame k). rewrite Hk in Hsame.
  destruct (cards' !! k) as [card'|]; [|done].
  injection Hsame as Hid Harea. eauto.
Qed.

Lemma same_areas_trans cards1 cards2 cards3 :
  same_areas cards1 cards2 → same_areas cards2 cards3 →
  same_areas cards1 cards3.
Proof. intros H12 H23 k. by rewrite H23, H12. Qed.

Lemma same_areas_wf cards cards' :
  same_areas cards cards' → ledger_wf cards → ledger_wf cards'.
Proof.
  intros Hsame Hwf k card' Hk. specialize (Hsame k). rewrite Hk in Hsame.
  destruct (cards !! k) as [card|] eqn:Hcard; [|done].
  injection Hsame as -> _. by apply Hwf.
Qed.

Lemma shift_x_same_areas data dx m :
  same_areas (_cards m) (_cards (shift_x data dx m)).
Proof.
  intros k. cbn [shift_x _cards]. rewrite lookup_alter.
  case_decide as Hk; [|done]. rewrite <- Hk.
  by destruct (_cards m !! id data).
Qed.

Lemma set_model_consistent g m :
  scene_consistent g → same_areas (_cards (_model g)) (_cards m) →
  scene_consistent (set_model m g).
Proof.
  intros Hg Hsame p n Hn. rewrite children_set_model in Hn.
  destruct (Hg p n Hn) as (card & Hcard & Harea).
  destruct (same_areas_lookup _ _ _ _ Hsame Hcard) as (card' & ? & _ & ?).
  exists card'. split; [done|congruence].
Qed.

Lemma addChild_consistent g p n card :
  scene_consistent g →
  _cards (_model g) !! n = Some card → area card = area_name p →
  scene_consistent (addChild p n g).
Proof.
  intros Hg Hcard Harea q n'. unfold addChild.
  rewrite children_set_children, model_set_children.
  case_decide as Hq; [subst q|by apply Hg].
  rewrite elem_of_app, list_elem_of_singleton.
  intros [Hn'| ->]; [by apply Hg|eauto].
Qed.

Lemma createCardNode_inv g data :
  scene_consistent g →
  (∃ card, _cards (_model g) !! id data = Some card
           ∧ area card = area data) →
  scene_consistent (_createCardNode data g)
  ∧ same_areas (_cards (_model g)) (_cards (_model (_createCardNode data g)))
  ∧ _history (_model (_createCardNode data g)) = _history (_model g).
Proof.
  intros Hg (card & Hcard & Harea). unfold _createCardNode.
  repeat case_bool_decide.
  - unfold addChild at 2 3. rewrite model_set_children.
    split; [|done].
    apply addChild_consistent with (card := card);
      [done|done|simpl; congruence].
  - unfold addChild at 2 3. rewrite model_set_children.
    pose proof (shift_x_same_areas data
                  (Z.of_nat (length (stockPile g)) * 100) (_model g)) as Hsame.
    split; [|done].
    destruct (same_areas_lookup _ _ _ _ Hsame Hcard) as (card' & ? & _ & ?).
    apply addChild_consistent with (card := card');
      [by apply set_model_consistent|done|simpl; congruence].
  - unfold addChild at 2 3. rewrite model_set_children.
    split; [|done].
    apply addChild_consistent with (card := card);
      [done|done|simpl; congruence].
  - done.
Qed.

Lemma createCardNodes_inv (cardsData : list CardData) g :
  scene_consistent g →
  (∀ data, data ∈ cardsData →
     ∃ card, _cards (_model g) !! id data = Some card
             ∧ area card = area data) →
  let g' := foldl (λ g data, _createCardNode data g) g cardsData in
  scene_consistent g'
  ∧ same_areas (_cards (_model g)) (_cards (_model g'))
  ∧ _history (_model g') = _history (_model g).
Proof.
  revert g. induction cardsData as [|data rest IH]; intros g Hg Hin; [done|].
  cbn [foldl].
  destruct (createCardNode_inv g data Hg) as (Hg1 & Hsame1 & Hhist1);
    [apply Hin; by left|].
  destruct (IH (_createCardNode data g) Hg1) as (Hg2 & Hsame2 & Hhist2).
  { intros data' Hdata'.
    destruct (Hin data') as (card & Hcard & Harea); [by right|].
    destruct (same_areas_lookup _ _ _ _ Hsame1 Hcard) as (card' & ? & _ & ?).
    exists card'. split; [done|congruence]. }
  split; [done|]. split; [by eapply same_areas_trans|congruence].
Qed.

Lemma getCardsInArea_elem m a data :
  ledger_wf (_cards m) → data ∈ getCardsInArea m a →
  _cards m !! id data = Some data.
Proof.
  intros Hwf. unfold getCardsInArea, entries.
  rewrite list_elem_of_filter, list_elem_of_fmap.
  intros (_ & [k card] & -> & Hin). cbn [snd].
  rewrite merge_sort_Permutation in Hin.
  apply elem_of_map_to_list in Hin. by rewrite (Hwf _ _ Hin).
Qed.

Lemma createAllCards_inv g :
  ledger_wf (_cards (_model g)) → scene_consistent g →
  scene_consistent (_createAllCards g)
  ∧ _history (_model (_createAllCards g)) = _history (_model g).
Proof.
  assert (Harea : ∀ g a,
    ledger_wf (_cards (_model g)) → scene_consistent g →
    let g' := foldl (λ g data, _createCardNode data g) g
                (getCardsInArea (_model g) a) in
    ledger_wf (_cards (_model g')) ∧ scene_consistent g'
    ∧ _history (_model g') = _history (_model g)).
  { intros g0 a Hwf Hg.
    destruct (createCardNodes_inv (getCardsInArea (_model g0) a) g0 Hg)
      as (Hg' & Hsame & Hhist).
    - intros data Hdata. exists data. split; [|done].
      by apply getCardsInArea_elem with (a := a).
    - split; [by eapply same_areas_wf|done]. }
  intros Hwf Hg. unfold _createAllCards. cbn [foldl].
  destruct (Harea g "main" Hwf Hg) as (Hwf1 & Hg1 & Hh1).
  destruct (Harea _ "stock" Hwf1 Hg1) as (Hwf2 & Hg2 & Hh2).
  destruct (Harea _ "discard" Hwf2 Hg2) as (Hwf3 & Hg3 & Hh3).
  split; [done|congruence].
Qed.

Lemma loadConfig_inv json g :
  _loadConfig json new_GameController = (Normal tt, g) → controller_inv g.
Proof.
  unfold _loadConfig.
  destruct (loadData json (_model new_GameController)) as [[[]|] m] eqn:Hload;
    [|done].
  intros [= <-].
  assert (Hm : m = (loadData json new_GameModel).2)
    by (change new_GameModel with (_model new_GameController);
        by rewrite Hload).
  destruct (createAllCards_inv (set_model m new_GameController))
    as (Hg & Hhist).
  - rewrite Hm. apply loadData_wf, ledger_wf_empty.
  - intros p n Hn. rewrite children_set_model in Hn.
    destruct p; by apply elem_of_nil in Hn.
  - split; [done|]. intros r. rewrite Hhist, Hm.
    unfold loadData. destruct (Playfield json); [|by intros ?%elem_of_nil].
    destruct (Stack json); by intros ?%elem_of_nil.
Qed.

(** In every state of a started game the scene shows the ledger. *)
Lemma playing_inv g : playing g → controller_inv g.
Proof.
  induction 1 as [json g Hstart|active intersects n g _ IH|g _ IH].
  - by eapply loadConfig_inv.
  - by apply onCardClick_inv.
  - by apply onUndo_inv.
Qed.

(** ** The rules of a move *)

(** C3. [isMatch]: in a scene that shows the ledger, as every scene of a
    started game does ([playing_inv]), [isMatch cardId] returns, and
    returns [true] exactly when the discard pile is not empty, the id is
    the one of a card, and the face of that card and the face of the card
    on top of the discard pile differ by exactly 1 as integers.  Hence
    faces 5 and 6 match either way, faces 0 and 12 do not match, and the
    answer is [false] when the discard pile is empty or the id is not the
    one of a card. *)
Theorem isMatch_spec (g : GameController) (cardId : Z) :
  scene_consistent g →
  (isMatch g cardId = Normal true ↔
     discardPile g ≠ []
     ∧ ∃ card top topCard,
         getCardById (_model g) cardId = Some card
         ∧ last (discardPile g) = Some top
         ∧ getCardById (_model g) top = Some topCard
         ∧ Z.abs (face card - face topCard) = 1)
  ∧ (isMatch g cardId ≠ Normal true → isMatch g cardId = Normal false)
  ∧ (discardPile g = [] → isMatch g cardId = Normal false)
  ∧ (getCardById (_model g) cardId = None → isMatch g cardId = Normal false)
  ∧ (∀ card top topCard,
       getCardById (_model g) cardId = Some card →
       last (discardPile g) = Some top →
       getCardById (_model g) top = Some topCard →
       (face card = 5 → face topCard = 6 → isMatch g cardId = Normal true)
       ∧ (face card = 6 → face topCard = 5 → isMatch g cardId = Normal true)
       ∧ (face card = 0 → face topCard = 12 → isMatch g cardId = Normal false)
       ∧ (face card = 12 → face topCard = 0 → isMatch g cardId = Normal false)).
Proof.
  intros Hg. split; [|split; [|split; [|split]]].
  - unfold isMatch. split.
    + destruct (last (discardPile g)) as [top|] eqn:Htop; [|done].
      destruct (getCardById (_model g) top) as [topCard|] eqn:HtopCard; [|done].
      destruct (getCardById (_model g) cardId) as [card|] eqn:Hcard; [|done].
      intros [= Habs%bool_decide_eq_true]. split.
      * intros Hnil. by rewrite Hnil in Htop.
      * by exists card, top, topCard.
    + intros (_ & card & top & topCard & -> & -> & -> & Habs).
      by rewrite bool_decide_eq_true_2.
  - destruct (isMatch_total g cardId Hg) as [[] ->]; done.
  - unfold isMatch. by intros ->.
  - intros Hnone. destruct (isMatch_total g cardId Hg) as [b Hb].
    rewrite Hb. unfold isMatch in Hb. rewrite Hnone in Hb.
    destruct (last (discardPile g)) as [top|]; [|done].
    by destruct (getCardById (_model g) top).
  - intros card top topCard Hcard Htop HtopCard.
    unfold isMatch. rewrite Htop, HtopCard, Hcard.
    repeat split; intros -> ->; reflexivity.
Qed.

Lemma isMatch_spec_witness :
  scene_consistent scenario_controller
  ∧ isMatch scenario_controller 1 = Normal true
  ∧ isMatch scenario_controller 0 = Normal false
  ∧ isMatch scenario_controller 9 = Normal false.
Proof.
  split; [exact scenario_consistent|].
  destruct (isMatch_spec scenario_controller 1 scenario_consistent)
    as ([_ Htrue] & _).
  destruct (isMatch_spec scenario_controller 0 scenario_consistent)
    as ([Hfalse _] & Hnot & _).
  destruct (isMatch_spec scenario_controller 9 scenario_consistent)
    as (_ & _ & _ & Hmissing & _).
  split; [|split].
  - apply Htrue. split; [done|].
    exists (new_CardData 1 7 1 "stock" (mkVec2 0 0)), 2,
      (new_CardData 2 8 2 "discard" (mkVec2 5 0)).
    repeat split; vm_compute; reflexivity.
  - apply Hnot. vm_compute. discriminate.
  - apply Hmissing. vm_compute; reflexivity.
Defined.

(** C4. Move legality policy: for a click on the node of a card, in a
    scene that shows the ledger, as every scene of a started game does
    ([playing_inv]), and with the occlusion test taken as given: an
    occluded card is not moved and nothing changes; otherwise a card of the
    discard zone is not moved; a card of the stock zone is moved to the
    discard zone, whatever the faces; a card of the main zone is moved to
    the discard zone if [isMatch] holds for it and is not moved if it does
    not.  Moving means that [moveCard] succeeds on the ledger, with zone
    discard, and that the node goes on top of the discard pile. *)
Theorem click_policy (active : Z → bool) (intersects : Z → Z → bool)
    (g : GameController) (cardNode : Z) (card : CardData) :
  scene_consistent g →
  is_Some (parent g cardNode) →
  getCardById (_model g) cardNode = Some card →
  let covered := _isCovered active intersects g cardNode in
  let rejected := (Normal tt, g) in
  let moved := (Normal tt, _moveCardToDiscard cardNode g) in
  let r := _onCardClick active intersects cardNode g in
  (covered = true → r = rejected)
  ∧ (covered = false → area card = "discard" → r = rejected)
  ∧ (covered = false → area card = "stock" → r = moved)
  ∧ (covered = false → area card = "main" →
       (isMatch g cardNode = Normal true ∧ r = moved)
       ∨ (isMatch g cardNode = Normal false ∧ r = rejected))
  ∧ (moveCard cardNode "discard" (mkVec2 0 0) (_model g)).1 = true
  ∧ _model moved.2 = (moveCard cardNode "discard" (mkVec2 0 0) (_model g)).2
  ∧ getCardById (_model moved.2) cardNode
    = Some (new_CardData (id card) (face card) (suit card) "discard"
              (mkVec2 0 0))
  ∧ last (discardPile moved.2) = Some cardNode.
Proof.
  intros Hg [p Hp] Hcard covered rejected moved r.
  assert (Harea : area card = area_name p).
  { destruct (Hg p cardNode (parent_Some _ _ _ Hp)) as (card' & Hcard' & <-).
    unfold getCardById in Hcard. congruence. }
  assert (Hr : r = if covered then rejected else
                   match p with
                   | DiscardPile => rejected
                   | StockPile => moved
                   | MainCardArea =>
                       match isMatch g cardNode with
                       | Normal true => moved
                       | Normal false => rejected
                       | TypeError => (TypeError, g)
                       end
                   end).
  { unfold r, _onCardClick. fold covered. by rewrite Hp. }
  split; [by intros Hc; rewrite Hr, Hc|].
  split; [intros Hc Ha; rewrite Hr, Hc; rewrite Harea in Ha; by destruct p|].
  split; [intros Hc Ha; rewrite Hr, Hc; rewrite Harea in Ha; by destruct p|].
  split.
  { intros Hc Ha. rewrite Hr, Hc. rewrite Harea in Ha.
    destruct p; try discriminate Ha.
    destruct (isMatch_total g cardNode Hg) as [[] ->]; [by left|by right]. }
  unfold moved; cbn [snd]. rewrite moveCardToDiscard_model.
  unfold getCardById, moveCard in *. rewrite Hcard; cbn [fst snd _cards].
  split; [done|]. split; [done|]. split; [by rewrite lookup_insert_eq|].
  unfold _moveCardToDiscard, moveCard. rewrite Hcard, Hp.
  apply (setParent_top DiscardPile).
Qed.

Lemma click_policy_witness :
  let free := λ _ : Z, false in
  scene_consistent scenario_controller
  ∧ is_Some (parent scenario_controller 1)
  ∧ getCardById (_model scenario_controller) 1
    = Some (new_CardData 1 7 1 "stock" (mkVec2 0 0))
  ∧ _onCardClick free (λ _, free) 1 scenario_controller
    = (Normal tt, _moveCardToDiscard 1 scenario_controller)
  ∧ getCardById (_model (_moveCardToDiscard 1 scenario_controller)) 1
    = Some (new_CardData 1 7 1 "discard" (mkVec2 0 0)).
Proof.
  intros free.
  assert (Hp : is_Some (parent scenario_controller 1))
    by (exists StockPile; vm_compute; reflexivity).
  assert (Hcard : getCardById (_model scenario_controller) 1
                  = Some (new_CardData 1 7 1 "stock" (mkVec2 0 0)))
    by (vm_compute; reflexivity).
  destruct (click_policy free (λ _, free) scenario_controller 1 _
              scenario_consistent Hp Hcard)
    as (_ & _ & Hstock & _ & _ & _ & Hmoved & _).
  split; [exact scenario_consistent|]. split; [exact Hp|].
  split; [exact Hcard|]. split; [|exact Hmoved].
  apply Hstock; [vm_compute; reflexivity|reflexivity].
Defined.

(** ** The scenario of the specification, step by step *)

(** Starting the game on the scenario's layout: card 0 in main, card 1 in
    stock, card 2 in discard. *)
Example scenario_start :
  _loadConfig scenario_layout new_GameController
  = (Normal tt, scenario_controller).
Proof. vm_compute. reflexivity. Qed.

Lemma scenario_playing : playing scenario_controller.
Proof. exact (playing_start _ _ scenario_start). Qed.

(** Card 0 (face 3) does not match the top of the discard pile (face 8).
    A click on card 1, of the stock, moves it on top of the discard pile;
    card 0 does not match face 7 either.  One undo gives back the state
    before the click. *)
Example scenario_play :
  let free := λ _ : Z, false in
  let g1 := (_onCardClick free (λ _, free) 1 scenario_controller).2 in
  isMatch scenario_controller 0 = Normal false
  ∧ stockPile g1 = [] ∧ discardPile g1 = [2; 1]
  ∧ placement (_model g1) 1 = Some ("discard", mkVec2 0 0)
  ∧ isMatch g1 0 = Normal false
  ∧ _onUndo g1 = scenario_controller.
Proof. vm_compute. repeat split. Qed.

(** ** More on the ledger and its history *)

Lemma undo_history_length m :
  length (_history (undo m).2) = pred (length (_history m)).
Proof.
  unfold undo. destruct (pop (_history m)) as [[last history]|] eqn:Hpop.
  - apply pop_Some in Hpop. rewrite Hpop, length_app. simpl.
    destruct (_cards m !! cardId last); simpl; lia.
  - apply pop_None in Hpop. cbn [snd]. by rewrite Hpop.
Qed.

Lemma undo_history_take m :
  _history (undo m).2 = take (pred (length (_history m))) (_history m).
Proof.
  unfold undo. destruct (pop (_history m)) as [[last history]|] eqn:Hpop.
  - apply pop_Some in Hpop. rewrite Hpop, length_app. simpl.
    replace (pred (length history + 1)) with (length history) by lia.
    rewrite take_app_length. by destruct (_cards m !! cardId last).
  - apply pop_None in Hpop. cbn [snd]. by rewrite Hpop.
Qed.

(** X1. Undo depth: [n] undos in a row take off exactly the last [n]
    records of the history, or all of them if there are fewer; the records
    that stay are the oldest ones, unchanged and in order. *)
Theorem undos_history (n : nat) (m : GameModel) :
  _history (undos n m) = take (length (_history m) - n) (_history m)
  ∧ length (_history (undos n m)) = (length (_history m) - n)%nat.
Proof.
  assert (Htake : ∀ n m,
    _history (undos n m) = take (length (_history m) - n) (_history m)).
  { clear. induction n as [|n IH]; intros m.
    - simpl. by rewrite Nat.sub_0_r, firstn_all.
    - cbn [undos]. rewrite IH, undo_history_length, undo_history_take.
      rewrite take_take. f_equal. lia. }
  split; [apply Htake|]. rewrite Htake, length_take. lia.
Qed.

Lemma undo_run_back m0 op m :
  ledger_wf (_cards m) →
  undos (length (_history m)) m = m0 →
  undos (length (_history (step_op op m))) (step_op op m) = m0.
Proof.
  intros Hwf Hback. destruct op as [k a p|]; cbn [step_op].
  - destruct (moveCard k a p m) as [success m1] eqn:Hmove. cbn [snd].
    destruct success.
    + assert (Hundo : (undo m1).2 = m).
      { replace m1 with (moveCard k a p m).2 by by rewrite Hmove.
        apply undo_moveCard; [done|by rewrite Hmove]. }
      assert (Hlen : length (_history m1) = S (length (_history m))).
      { unfold moveCard in Hmove. destruct (_cards m !! k); [|done].
        injection Hmove as <-. cbn [_history]. rewrite length_app. simpl. lia. }
      rewrite Hlen. cbn [undos]. by rewrite Hundo.
    + unfold moveCard in Hmove. destruct (_cards m !! k); [done|].
      by injection Hmove as <-.
  - destruct (_history m) as [|r h] eqn:Hh.
    + unfold undo. rewrite Hh. cbn [pop snd]. by rewrite Hh.
    + rewrite undo_history_length, Hh. cbn [length pred].
      cbn [length undos] in Hback. done.
Qed.

(** X2. Undoing everything: on a ledger whose keys are its card ids,
    after any sequence of moves and undos, with any arguments and whether
    the moves succeed or not, undoing every record that is left gives the
    model that undoing every record gave before the sequence.  So from an
    empty history, whatever is done, undoing all of it gives back the
    starting model: every card, and an empty history. *)
Theorem undo_all_restores (ops : list Op) (m : GameModel) :
  ledger_wf (_cards m) →
  undos (length (_history (run ops m))) (run ops m)
  = undos (length (_history m)) m
  ∧ (_history m = [] →
     undos (length (_history (run ops m))) (run ops m) = m).
Proof.
  intros Hwf.
  assert (Hgen : ∀ m0 ops m,
    ledger_wf (_cards m) →
    undos (length (_history m)) m = m0 →
    undos (length (_history (run ops m))) (run ops m) = m0).
  { clear. intros m0 ops. induction ops as [|op rest IH]; intros m Hwf Hback;
      [done|].
    cbn [run]. apply IH.
    - destruct op; cbn [step_op]; auto with ledger.
    - by apply undo_run_back. }
  split.
  - by apply Hgen.
  - intros Hempty. apply Hgen; [done|]. by rewrite Hempty.
Qed.

Lemma undo_all_restores_witness :
  let ops := [OpMove 1 "discard" (mkVec2 0 0); OpMove 9 "main" (mkVec2 1 1);
              OpUndo; OpMove 0 "limbo" (mkVec2 2 2);
              OpMove 0 "stock" (mkVec2 3 3)] in
  ledger_wf (_cards scenario_model)
  ∧ length (_history (run ops scenario_model)) = 2%nat
  ∧ undos 2 (run ops scenario_model) = scenario_model.
Proof.
  intros ops.
  assert (Hwf : ledger_wf (_cards scenario_model)).
  { apply reachable_wf, reachable_loadData, reachable_new. }
  assert (Hlen : length (_history (run ops scenario_model)) = 2%nat)
    by (vm_compute; reflexivity).
  split; [exact Hwf|]. split; [exact Hlen|].
  rewrite <- Hlen at 1.
  exact (proj2 (undo_all_restores ops scenario_model Hwf) eq_refl).
Defined.

Lemma loaded_cards_length playfield stack :
  length (loaded_cards playfield stack)
  = (length playfield + length stack)%nat.
Proof. unfold loaded_cards. by rewrite length_app, !length_imap. Qed.

(** The ledger after a load: the cards of the layout under the keys from 0
    on, and the earlier cards under every other key. *)
Lemma loadData_lookup playfield stack m k :
  _cards (loadData (mkLayout (Some playfield) (Some stack)) m).2 !! k
  = if decide (0 ≤ k < Z.of_nat (length playfield + length stack))
    then loaded_cards playfield stack !! Z.to_nat k
    else _cards m !! k.
Proof.
  unfold loadData. cbn [Playfield Stack snd _cards].
  set (ar := λ index : Z, stack_area index (length stack)).
  set (s1 := forEach (λ item (_ : Z), load_item "main" item) playfield 0
               (0, _cards m)).
  assert (Hs1 : s1 = (Z.of_nat (length playfield), s1.2)).
  { rewrite (surjective_pairing s1) at 1. f_equal.
    unfold s1. rewrite (forEach_load_counter (λ _, "main")). lia. }
  rewrite Hs1. case_decide as Hk.
  - destruct (decide (k < Z.of_nat (length playfield))) as [Hlt|Hge].
    + rewrite (forEach_load_outside ar) by lia. unfold s1, loaded_cards.
      rewrite lookup_app_l by (rewrite length_imap; lia).
      rewrite list_lookup_imap.
      destruct (lookup_lt_is_Some_2 playfield (Z.to_nat k)) as [item Hitem];
        [lia|].
      rewrite Hitem.
      pose proof (forEach_load_inside (λ _, "main") _ 0 0 (_cards m) _ _ Hitem)
        as Hin.
      rewrite Z.add_0_l, Z2Nat.id in Hin by lia. rewrite Hin.
      cbn [fmap option_fmap option_map]. unfold card_of.
      by rewrite Z2Nat.id by lia.
    + unfold loaded_cards.
      rewrite lookup_app_r by (rewrite length_imap; lia).
      rewrite length_imap, list_lookup_imap.
      destruct (lookup_lt_is_Some_2 stack
                  (Z.to_nat k - length playfield)) as [item Hitem]; [lia|].
      rewrite Hitem.
      pose proof (forEach_load_inside ar _ 0 (Z.of_nat (length playfield))
                    s1.2 _ _ Hitem) as Hin.
      replace (Z.of_nat (length playfield)
               + Z.of_nat (Z.to_nat k - length playfield)) with k in Hin
        by lia.
      etrans; [exact Hin|].
      cbn [fmap option_fmap option_map]. unfold card_of.
      do 2 f_equal; [lia|].
      unfold ar, stack_area. repeat case_bool_decide; done || lia.
  - rewrite (forEach_load_outside ar) by lia. unfold s1.
    apply (forEach_load_outside (λ _, "main")). lia.
Qed.

Lemma loadData_cards playfield stack m :
  _cards (loadData (mkLayout (Some playfield) (Some stack)) m).2
  = map_seqZ 0 (loaded_cards playfield stack) ∪ _cards m.
Proof.
  apply map_eq. intros k. rewrite loadData_lookup.
  pose proof (loaded_cards_length playfield stack) as Hlen.
  case_decide as Hk.
  - destruct (lookup_lt_is_Some_2 (loaded_cards playfield stack) (Z.to_nat k))
      as [card Hcard]; [lia|].
    rewrite Hcard. symmetry. apply lookup_union_Some_l.
    by rewrite lookup_map_seqZ_0 by lia.
  - rewrite lookup_union_r; [done|]. apply lookup_map_seqZ_None. lia.
Qed.

(** X3. Loading is not a reset: loading a layout into a model that holds
    cards and records already returns normally, leaves the history as it
    is, and gives the ledger of a first load of that layout laid over the
    earlier ledger: the ids of the layout get its cards, and every card
    with an id beyond the layout stays. *)
Theorem loadData_over (playfield stack : list LayoutItem) (m : GameModel) :
  let jsonData := mkLayout (Some playfield) (Some stack) in
  (loadData jsonData m).1 = Normal tt
  ∧ _history (loadData jsonData m).2 = _history m
  ∧ _cards (loadData jsonData m).2
    = _cards (loadData jsonData new_GameModel).2 ∪ _cards m
  ∧ ∀ k, Z.of_nat (length playfield + length stack) ≤ k →
      getCardById (loadData jsonData m).2 k = getCardById m k.
Proof.
  intros jsonData. split; [done|]. split; [done|]. split.
  - unfold jsonData. rewrite !loadData_cards. cbn [new_GameModel _cards].
    by rewrite (right_id_L ∅ (∪)).
  - intros k Hk. unfold getCardById, jsonData. rewrite loadData_lookup.
    case_decide; [lia|done].
Qed.

Lemma loadData_over_witness :
  let jsonData := mkLayout (Some [mkLayoutItem 5 1 (mkVec2 1 1)])
                    (Some [mkLayoutItem 6 2 (mkVec2 2 2)]) in
  let m := (moveCard 2 "main" (mkVec2 9 9) scenario_model).2 in
  _history (loadData jsonData m).2
  = [mkMoveRecord 2 "discard" (mkVec2 5 0)]
  ∧ getCardById (loadData jsonData m).2 2
    = Some (new_CardData 2 8 2 "main" (mkVec2 9 9))
  ∧ getCardById (loadData jsonData m).2 1
    = Some (new_CardData 1 6 2 "discard" (mkVec2 2 2)).
Proof.
  intros jsonData m.
  destruct (loadData_over [mkLayoutItem 5 1 (mkVec2 1 1)]
              [mkLayoutItem 6 2 (mkVec2 2 2)] m) as (_ & Hhist & _ & Hkeep).
  split; [exact Hhist|]. split.
  - transitivity (getCardById m 2);
      [exact (Hkeep 2 ltac:(simpl; lia))|vm_compute; reflexivity].
  - vm_compute; reflexivity.
Defined.

Lemma forEach_load_keeps (area_at : Z → string) arr index idCounter cards k :
  is_Some (cards !! k) →
  is_Some ((forEach (λ item index, load_item (area_at index) item)
              arr index (idCounter, cards)).2 !! k).
Proof.
  rewrite <- !elem_of_dom, forEach_load_dom, elem_of_union. by left.
Qed.

Lemma loadData_keeps jsonData m k :
  is_Some (_cards m !! k) → is_Some (_cards (loadData jsonData m).2 !! k).
Proof.
  intros Hk. unfold loadData.
  destruct (Playfield jsonData) as [playfield|]; [|done].
  pose proof (forEach_load_keeps (λ _, "main") playfield 0 0 _ k Hk) as Hmain.
  destruct (Stack jsonData) as [stack|]; [|done].
  cbn [snd _cards].
  destruct (forEach _ playfield 0 (0, _cards m)) as [idCounter cards].
  by apply (forEach_load_keeps (λ index, stack_area index (length stack))).
Qed.

Lemma reachable_history_resolves m : reachable m → history_resolves m.
Proof.
  induction 1 as [|jsonData m Hm IH|k a p m Hm IH|m Hm IH].
  - intros r Hr. by apply elem_of_nil in Hr.
  - intros r Hr. apply loadData_keeps, IH.
    unfold loadData in Hr.
    destruct (Playfield jsonData); [|done]. by destruct (Stack jsonData).
  - unfold moveCard. destruct (_cards m !! k) as [card|] eqn:Hk; [|done].
    intros r. cbn [snd _cards _history].
    rewrite elem_of_app, list_elem_of_singleton, lookup_insert_is_Some'.
    intros [Hr| ->].
    + right. by apply IH.
    + left. cbn [cardId]. symmetry. by apply (reachable_wf m).
  - unfold undo. destruct (pop (_history m)) as [[last history]|] eqn:Hpop;
      [|done].
    apply pop_Some in Hpop.
    assert (Hsub : ∀ r, r ∈ history → r ∈ _history m).
    { intros r Hr. rewrite Hpop, elem_of_app. by left. }
    destruct (_cards m !! cardId last) as [card|] eqn:Hk;
      intros r Hr; cbn [snd _cards _history] in *.
    + rewrite lookup_insert_is_Some'. right. by apply IH, Hsub.
    + by apply IH, Hsub.
Qed.

(** X4. The history names cards of the ledger: in every state that a
    model reaches through [loadData], [moveCard] and [undo], each record of
    the history names a card that the ledger holds, under its own id.  So
    an undo on a history that is not empty always finds its card and puts
    it back: the branch of [undo] for a missing card is never taken. *)
Theorem undo_finds_card (m : GameModel) :
  reachable m →
  (∀ r, r ∈ _history m →
     ∃ card, getCardById m (cardId r) = Some card ∧ id card = cardId r)
  ∧ (_history m ≠ [] →
     ∃ last card,
       (undo m).1 = Some last
       ∧ getCardById m (cardId last) = Some card
       ∧ getCardById (undo m).2 (cardId last)
         = Some (new_CardData (id card) (face card) (suit card)
                   (oldArea last) (oldPos last))).
Proof.
  intros Hm.
  assert (Hres : ∀ r, r ∈ _history m →
            ∃ card, getCardById m (cardId r) = Some card
                    ∧ id card = cardId r).
  { intros r Hr.
    destruct (reachable_history_resolves m Hm r Hr) as [card Hcard].
    exists card. split; [done|]. by apply (reachable_wf m). }
  split; [done|]. intros Hne.
  destruct (pop (_history m)) as [[last history]|] eqn:Hpop;
    [|by apply pop_None in Hpop].
  destruct (Hres last) as (card & Hcard & _).
  { apply pop_Some in Hpop. rewrite Hpop, elem_of_app, list_elem_of_singleton.
    by right. }
  exists last, card. unfold getCardById, undo in *. rewrite Hpop, Hcard.
  cbn [fst snd _cards]. by rewrite lookup_insert_eq.
Qed.

Lemma undo_finds_card_witness :
  let m := (moveCard 1 "discard" (mkVec2 0 0) scenario_model).2 in
  reachable m
  ∧ _history m ≠ []
  ∧ ∃ last card,
      (undo m).1 = Some last
      ∧ getCardById m (cardId last) = Some card
      ∧ getCardById (undo m).2 (cardId last)
        = Some (new_CardData (id card) (face card) (suit card)
                  (oldArea last) (oldPos last)).
Proof.
  intros m.
  assert (Hm : reachable m).
  { apply reachable_moveCard, reachable_loadData, reachable_new. }
  assert (Hne : _history m ≠ []) by (vm_compute; discriminate).
  split; [exact Hm|]. split; [exact Hne|].
  exact (proj2 (undo_finds_card m Hm) Hne).
Defined.

Lemma step_op_frame op m k :
  ledger_wf (_cards m) →
  (∀ r, r ∈ _history m → cardId r ≠ k) →
  (∀ k' a p, op = OpMove k' a p → k' ≠ k) →
  _cards (step_op op m) !! k = _cards m !! k
  ∧ ∀ r, r ∈ _history (step_op op m) → cardId r ≠ k.
Proof.
  intros Hwf Hh Hop. destruct op as [k' a p|]; cbn [step_op].
  - unfold moveCard. destruct (_cards m !! k') as [card|] eqn:Hk'; [|done].
    cbn [snd _cards _history]. specialize (Hop k' a p eq_refl). split.
    + by rewrite lookup_insert_ne.
    + intros r. rewrite elem_of_app, list_elem_of_singleton.
      intros [Hr| ->]; [by apply Hh|].
      cbn [cardId]. by rewrite (Hwf _ _ Hk').
  - unfold undo. destruct (pop (_history m)) as [[last history]|] eqn:Hpop;
      [|done].
    apply pop_Some in Hpop.
    assert (Hlast : cardId last ≠ k).
    { apply Hh. rewrite Hpop, elem_of_app, list_elem_of_singleton. by right. }
    assert (Hrest : ∀ r, r ∈ history → cardId r ≠ k).
    { intros r Hr. apply Hh. rewrite Hpop, elem_of_app. by left. }
    destruct (_cards m !! cardId last); cbn [snd _cards _history];
      [|done].
    split; [by rewrite lookup_insert_ne|done].
Qed.

(** X5. Only the cards that are named change: on a ledger whose keys are
    its card ids, a card that no record of the history names and that no
    move of a sequence of moves and undos targets is, after the sequence,
    as it was before: same zone and position, same everything. *)
Theorem run_frame (ops : list Op) (m : GameModel) (k : Z) :
  ledger_wf (_cards m) →
  (∀ r, r ∈ _history m → cardId r ≠ k) →
  (∀ k' a p, OpMove k' a p ∈ ops → k' ≠ k) →
  getCardById (run ops m) k = getCardById m k.
Proof.
  unfold getCardById. revert m.
  induction ops as [|op rest IH]; intros m Hwf Hh Hops; [done|].
  cbn [run].
  destruct (step_op_frame op m k Hwf Hh) as [Hk Hh'].
  { intros k' a p ->. apply (Hops k' a p). by left. }
  rewrite IH; [done| |done|].
  - destruct op; cbn [step_op]; auto with ledger.
  - intros k' a p Hin. apply (Hops k' a p). by right.
Qed.

Lemma run_frame_witness :
  let ops := [OpMove 1 "discard" (mkVec2 0 0); OpUndo;
              OpMove 2 "main" (mkVec2 7 7)] in
  ledger_wf (_cards scenario_model)
  ∧ getCardById (run ops scenario_model) 0
    = Some (new_CardData 0 3 0 "main" (mkVec2 10 20)).
Proof.
  intros ops.
  assert (Hwf : ledger_wf (_cards scenario_model)).
  { apply reachable_wf, reachable_loadData, reachable_new. }
  split; [exact Hwf|].
  rewrite (run_frame ops scenario_model 0 Hwf).
  - vm_compute; reflexivity.
  - intros r Hr. by apply elem_of_nil in Hr.
  - intros k' a p Hin. unfold ops in Hin.
    rewrite !elem_of_cons, elem_of_nil in Hin.
    destruct Hin as [Hin|[Hin|[Hin|[]]]]; try discriminate Hin;
      by injection Hin as -> _ _.
Defined.

(** ** The cards of a zone *)

Lemma entries_elem cards k card :
  (k, card) ∈ entries cards ↔ cards !! k = Some card.
Proof.
  unfold entries. rewrite merge_sort_Permutation. apply elem_of_map_to_list.
Qed.

Lemma entries_NoDup cards : NoDup (entries cards).*1.
Proof.
  unfold entries. rewrite merge_sort_Permutation.
  apply NoDup_fst_map_to_list.
Qed.

Lemma entries_sorted cards : StronglySorted key_le (entries cards).
Proof. apply StronglySorted_merge_sort; apply _. Qed.

(** The cards of a sorted list of entries, filtered, have increasing ids. *)
Lemma sorted_entries_ids (P : CardData → Prop) `{∀ c, Decision (P c)}
    (l : list (Z * CardData)) :
  StronglySorted key_le l → NoDup l.*1 →
  (∀ k card, (k, card) ∈ l → id card = k) →
  StronglySorted (λ c1 c2, id c1 < id c2) (filter P l.*2).
Proof.
  induction l as [|[k card] l IH]; intros Hsorted Hnodup Hid.
  - constructor.
  - apply StronglySorted_inv in Hsorted as [Hl Hk].
    apply NoDup_cons in Hnodup as [Hnotin Hnodup]. cbn [fmap list_fmap snd].
    assert (Htail : StronglySorted (λ c1 c2, id c1 < id c2) (filter P l.*2)).
    { apply IH; [done|done|]. intros k' card' Hin. apply Hid. by right. }
    rewrite filter_cons. case_decide; [|done].
    constructor; [done|]. apply Forall_forall. intros card'.
    rewrite list_elem_of_filter, list_elem_of_fmap.
    intros (_ & [k' card''] & -> & Hin). cbn [snd].
    rewrite Forall_forall in Hk. specialize (Hk _ Hin). unfold key_le in Hk.
    cbn [fst] in Hk.
    rewrite (Hid k card) by by left. rewrite (Hid k' card'') by by right.
    assert (k ≠ k'); [|lia].
    intros ->. apply Hnotin. apply list_elem_of_fmap. by exists (k', card'').
Qed.

(** X6. The cards of a zone: on a ledger whose keys are its card ids,
    [getCardsInArea] gives exactly the cards of the ledger whose zone is
    the one asked for, each once, by increasing id; a card is in the
    answer for one zone only. *)
Theorem getCardsInArea_spec (m : GameModel) (a : string) :
  ledger_wf (_cards m) →
  (∀ card, card ∈ getCardsInArea m a
           ↔ area card = a ∧ getCardById m (id card) = Some card)
  ∧ NoDup (getCardsInArea m a)
  ∧ StronglySorted (λ c1 c2, id c1 < id c2) (getCardsInArea m a)
  ∧ (∀ a' card, card ∈ getCardsInArea m a → card ∈ getCardsInArea m a' →
       a' = a).
Proof.
  intros Hwf.
  assert (Helem : ∀ a card, card ∈ getCardsInArea m a
            ↔ area card = a ∧ getCardById m (id card) = Some card).
  { intros a0 card. unfold getCardsInArea, getCardById.
    rewrite list_elem_of_filter, list_elem_of_fmap. split.
    - intros (Harea & [k card'] & -> & Hin). cbn [snd].
      apply entries_elem in Hin. by rewrite (Hwf _ _ Hin).
    - intros [Harea Hcard]. split; [done|].
      exists (id card, card). split; [done|]. by apply entries_elem. }
  assert (Hsorted : StronglySorted (λ c1 c2, id c1 < id c2)
                      (getCardsInArea m a)).
  { apply sorted_entries_ids.
    - apply entries_sorted.
    - apply entries_NoDup.
    - intros k card Hin. apply entries_elem in Hin. by apply Hwf. }
  split; [apply Helem|]. split; [|split; [done|]].
  - clear Helem. induction Hsorted as [|card l _ IH Hall]; constructor;
      [|done].
    intros Hin. rewrite Forall_forall in Hall. specialize (Hall _ Hin). lia.
  - intros a' card [Ha _]%Helem [Ha' _]%Helem. congruence.
Qed.

Lemma getCardsInArea_spec_witness :
  ledger_wf (_cards scenario_model)
  ∧ (new_CardData 1 7 1 "stock" (mkVec2 0 0)
     ∈ getCardsInArea scenario_model "stock")
  ∧ NoDup (getCardsInArea scenario_model "stock").
Proof.
  assert (Hwf : ledger_wf (_cards scenario_model)).
  { apply reachable_wf, reachable_loadData, reachable_new. }
  destruct (getCardsInArea_spec scenario_model "stock" Hwf)
    as (Helem & Hnodup & _).
  split; [exact Hwf|]. split; [|exact Hnodup].
  apply Helem. split; [reflexivity|vm_compute; reflexivity].
Defined.

Lemma zip_seqZ_sorted (l : list CardData) start :
  StronglySorted key_le (zip (seqZ start (Z.of_nat (length l))) l).
Proof.
  apply Sorted_StronglySorted; [apply _|]. revert start.
  induction l as [|card l IH]; intros start; [constructor|].
  cbn [length]. rewrite seqZ_cons by lia. cbn [zip zip_with].
  replace (Z.pred (Z.of_nat (S (length l)))) with (Z.of_nat (length l)) by lia.
  constructor; [apply IH|].
  destruct l as [|card' l]; [constructor|].
  cbn [length]. rewrite seqZ_cons by lia. constructor. unfold key_le. simpl.
  lia.
Qed.

Lemma entries_map_seqZ (l : list CardData) :
  entries (map_seqZ 0 l) = zip (seqZ 0 (Z.of_nat (length l))) l.
Proof.
  assert (Hperm : entries (map_seqZ 0 l)
                  ≡ₚ zip (seqZ 0 (Z.of_nat (length l))) l).
  { unfold entries. rewrite merge_sort_Permutation. apply map_to_list_seqZ. }
  apply (StronglySorted_unique_strong key_le);
    [|apply entries_sorted|apply zip_seqZ_sorted|done].
  intros [k1 c1] [k2 c2] H1 H2. unfold key_le. cbn [fst]. intros Hle Hge.
  assert (k1 = k2) as -> by lia. f_equal.
  rewrite <- Hperm in H2. apply entries_elem in H1, H2. congruence.
Qed.

Lemma filter_imap_all {A B} (P : B → Prop) `{∀ b, Decision (P b)}
    (f : nat → A → B) (l : list A) :
  (∀ i a, l !! i = Some a → P (f i a)) → filter P (imap f l) = imap f l.
Proof.
  revert f. induction l as [|a l IH]; intros f Hall; [done|].
  rewrite imap_cons, filter_cons, decide_True by by apply (Hall 0%nat).
  f_equal. apply IH. intros i a' Hi. by apply (Hall (S i)).
Qed.

Lemma filter_imap_none {A B} (P : B → Prop) `{∀ b, Decision (P b)}
    (f : nat → A → B) (l : list A) :
  (∀ i a, l !! i = Some a → ¬ P (f i a)) → filter P (imap f l) = [].
Proof.
  revert f. induction l as [|a l IH]; intros f Hall; [done|].
  rewrite imap_cons, filter_cons, decide_False by by apply (Hall 0%nat).
  apply IH. intros i a' Hi. by apply (Hall (S i)).
Qed.

(** The cards of a first load, in the order of their ids. *)
Lemma getCardsInArea_loaded playfield stack a :
  getCardsInArea
    (loadData (mkLayout (Some playfield) (Some stack)) new_GameModel).2 a
  = filter (λ card, area card = a) (loaded_cards playfield stack).
Proof.
  unfold getCardsInArea. rewrite loadData_cards.
  cbn [new_GameModel _cards]. rewrite (right_id_L ∅ (∪)), entries_map_seqZ.
  by rewrite snd_zip by (rewrite length_seqZ; lia).
Qed.

(** X7. The zones after a first load: for a layout with M main entries
    and S >= 1 stack entries loaded into a new model, [getCardsInArea]
    gives for main the cards of the main entries, in their order, with ids
    0..M-1; for stock the cards of the stack entries but the last, in their
    order, with ids M..M+S-2; for discard the one card of the last stack
    entry, with id M+S-1; and no card for any other zone name. *)
Theorem loaded_zones (playfield stack : list LayoutItem) :
  stack ≠ [] →
  let M := length playfield in
  let S := length stack in
  let m := (loadData (mkLayout (Some playfield) (Some stack))
              new_GameModel).2 in
  getCardsInArea m "main" = imap (λ i, card_of (Z.of_nat i) "main") playfield
  ∧ getCardsInArea m "stock"
    = imap (λ j, card_of (Z.of_nat (M + j)) "stock") (take (S - 1) stack)
  ∧ (∃ item, last stack = Some item
       ∧ getCardsInArea m "discard"
         = [card_of (Z.of_nat (M + S) - 1) "discard" item])
  ∧ (∀ a, a ∉ ["main"; "stock"; "discard"] → getCardsInArea m a = []).
Proof.
  intros Hne M S m.
  destruct (last stack) as [item|] eqn:Hlast; [|by apply last_None in Hlast].
  apply last_Some in Hlast as [rest Hstack].
  assert (HS : S = (length rest + 1)%nat).
  { unfold S. rewrite Hstack, length_app. simpl. lia. }
  assert (Hzone : ∀ a,
    getCardsInArea m a
    = (filter (λ card, area card = a)
         (imap (λ i, card_of (Z.of_nat i) "main") playfield)
       ++ filter (λ card, area card = a)
            (imap (λ j, card_of (Z.of_nat (M + j)) "stock") rest)
       ++ filter (λ card, area card = a)
            [card_of (Z.of_nat (M + S) - 1) "discard" item])%list).
  { intros a. unfold m. rewrite getCardsInArea_loaded. unfold loaded_cards.
    rewrite filter_app. f_equal. fold M S. rewrite Hstack at 1.
    rewrite imap_app, filter_app. f_equal.
    - f_equal. apply imap_ext. intros j item' Hj. cbn beta.
      apply lookup_lt_Some in Hj.
      rewrite bool_decide_eq_false_2; [done|lia].
    - cbn [imap]. rewrite bool_decide_eq_true_2 by lia.
      do 3 f_equal. lia. }
  assert (Htake : take (S - 1) stack = rest).
  { rewrite Hstack, HS.
    replace (length rest + 1 - 1)%nat with (length rest) by lia.
    apply take_app_length. }
  split; [|split; [|split]].
  - rewrite Hzone, filter_imap_all by done.
    rewrite filter_imap_none by done.
    rewrite filter_cons, decide_False by done. by rewrite !app_nil_r.
  - rewrite Hzone, filter_imap_none by done.
    rewrite filter_imap_all by done.
    rewrite filter_cons, decide_False by done. rewrite Htake.
    by rewrite app_nil_r.
  - exists item. split; [done|].
    rewrite Hzone, !filter_imap_none by done.
    by rewrite filter_cons, decide_True by done.
  - intros a Ha. rewrite Hzone.
    assert (a ≠ "main" ∧ a ≠ "stock" ∧ a ≠ "discard") as (? & ? & ?).
    { repeat split; intros ->; apply Ha; set_solver. }
    rewrite !filter_imap_none by (intros; simpl; congruence).
    by rewrite filter_cons, decide_False by (simpl; congruence).
Qed.

Lemma loaded_zones_witness :
  [mkLayoutItem 7 1 (mkVec2 0 0); mkLayoutItem 8 2 (mkVec2 5 0)] ≠ []
  ∧ getCardsInArea scenario_model "main"
    = [new_CardData 0 3 0 "main" (mkVec2 10 20)]
  ∧ getCardsInArea scenario_model "stock"
    = [new_CardData 1 7 1 "stock" (mkVec2 0 0)]
  ∧ getCardsInArea scenario_model "discard"
    = [new_CardData 2 8 2 "discard" (mkVec2 5 0)].
Proof.
  assert (Hne : [mkLayoutItem 7 1 (mkVec2 0 0);
                 mkLayoutItem 8 2 (mkVec2 5 0)] ≠ []) by done.
  destruct (loaded_zones [mkLayoutItem 3 0 (mkVec2 10 20)] _ Hne)
    as (Hmain & Hstock & (item & Hlast & Hdiscard) & _).
  split; [exact Hne|]. split; [exact Hmain|]. split; [exact Hstock|].
  injection Hlast as <-. exact Hdiscard.
Defined.

(** ** The scene when the game starts *)

Lemma sorted_ids_unique (l1 l2 : list CardData) :
  StronglySorted (λ c1 c2, id c1 < id c2) l1 →
  StronglySorted (λ c1 c2, id c1 < id c2) l2 →
  (∀ card, card ∈ l1 ↔ card ∈ l2) → l1 = l2.
Proof.
  assert (Hnodup : ∀ l, StronglySorted (λ c1 c2, id c1 < id c2) l → NoDup l).
  { intros l Hl. induction Hl as [|card l _ IH Hall]; constructor; [|done].
    intros Hin. rewrite Forall_forall in Hall. specialize (Hall _ Hin). lia. }
  intros H1 H2 Hmem.
  apply (StronglySorted_unique_strong (λ c1 c2, id c1 < id c2));
    [intros; lia|done|done|].
  apply NoDup_Permutation; auto.
Qed.

Lemma getCardsInArea_elem_iff m a card :
  ledger_wf (_cards m) →
  card ∈ getCardsInArea m a ↔ area card = a ∧ _cards m !! id card = Some card.
Proof.
  intros Hwf. unfold getCardsInArea.
  rewrite list_elem_of_filter, list_elem_of_fmap. split.
  - intros (Harea & [k card'] & -> & Hin). cbn [snd].
    apply entries_elem in Hin. by rewrite (Hwf _ _ Hin).
  - intros [Harea Hcard]. split; [done|].
    exists (id card, card). split; [done|]. by apply entries_elem.
Qed.

Lemma getCardsInArea_sorted m a :
  ledger_wf (_cards m) →
  StronglySorted (λ c1 c2, id c1 < id c2) (getCardsInArea m a).
Proof.
  intros Hwf. apply sorted_entries_ids.
  - apply entries_sorted.
  - apply entries_NoDup.
  - intros k card Hin. apply entries_elem in Hin. by apply Hwf.
Qed.

(** The cards of a zone depend on the cards of that zone only. *)
Lemma getCardsInArea_ext m m' a :
  ledger_wf (_cards m) → ledger_wf (_cards m') →
  (∀ card, area card = a →
     _cards m !! id card = Some card ↔ _cards m' !! id card = Some card) →
  getCardsInArea m a = getCardsInArea m' a.
Proof.
  intros Hwf Hwf' Hsame.
  apply sorted_ids_unique; [by apply getCardsInArea_sorted..|].
  intros card. rewrite !getCardsInArea_elem_iff by done.
  split; intros [Ha Hc]; (split; [done|]); by apply (Hsame card Ha).
Qed.

Lemma createCardNode_plain p data g :
  p ≠ StockPile → area data = area_name p →
  _createCardNode data g = addChild p (id data) g.
Proof.
  intros Hp Ha. unfold _createCardNode. rewrite Ha.
  by destruct p.
Qed.

Lemma createCardNode_stock data g :
  area data = "stock" →
  _createCardNode data g
  = addChild StockPile (id data)
      (set_model (shift_x data (Z.of_nat (length (stockPile g)) * 100)
                    (_model g)) g).
Proof. intros Ha. unfold _createCardNode. by rewrite Ha. Qed.

Lemma children_addChild p n g q :
  children (addChild p n g) q
  = if decide (q = p) then (children g p ++ [n])%list else children g q.
Proof. unfold addChild. apply children_set_children. Qed.

Lemma createPlain_fold p (l : list CardData) g :
  p ≠ StockPile → (∀ c, c ∈ l → area c = area_name p) →
  let g' := foldl (λ g data, _createCardNode data g) g l in
  _model g' = _model g
  ∧ ∀ q, children g' q
         = if decide (q = p) then (children g p ++ (id <$> l))%list
           else children g q.
Proof.
  intros Hp. revert g. induction l as [|c l IH]; intros g Hall; cbn [foldl].
  - split; [done|]. intros q. case_decide; [|done].
    subst q. by rewrite app_nil_r.
  - rewrite (createCardNode_plain p) by (done || apply Hall; by left).
    destruct (IH (addChild p (id c) g)) as [Hm Hq];
      [intros c' Hc'; apply Hall; by right|].
    split; [rewrite Hm; apply model_set_children|].
    intros q. rewrite Hq, !children_addChild.
    case_decide; [|done].
    rewrite decide_True by done. by rewrite <- app_assoc.
Qed.

Lemma createStock_fold (l : list CardData) g :
  (∀ c, c ∈ l → area c = "stock") → NoDup (id <$> l) →
  let g' := foldl (λ g data, _createCardNode data g) g l in
  mainCardArea g' = mainCardArea g
  ∧ stockPile g' = (stockPile g ++ (id <$> l))%list
  ∧ discardPile g' = discardPile g
  ∧ _history (_model g') = _history (_model g)
  ∧ (∀ k, k ∉ id <$> l → _cards (_model g') !! k = _cards (_model g) !! k)
  ∧ (∀ j c, l !! j = Some c →
       _cards (_model g') !! id c
       = shifted (Z.of_nat (length (stockPile g) + j) * 100)
           <$> _cards (_model g) !! id c).
Proof.
  revert g. induction l as [|c l IH]; intros g Hall Hnodup; cbn [foldl].
  - rewrite app_nil_r. repeat split; done.
  - rewrite createCardNode_stock by (apply Hall; by left).
    cbn [fmap list_fmap] in Hnodup.
    apply NoDup_cons in Hnodup as [Hc Hnodup].
    set (g1 := addChild StockPile (id c) _).
    destruct (IH g1) as (Hmain & Hstock & Hdiscard & Hhist & Hout & Hin);
      [intros c' Hc'; apply Hall; by right|done|].
    assert (Hcards1 : ∀ k, _cards (_model g1) !! k
              = if decide (id c = k)
                then shifted (Z.of_nat (length (stockPile g)) * 100)
                       <$> _cards (_model g) !! id c
                else _cards (_model g) !! k).
    { intros k. unfold g1, addChild. rewrite model_set_children.
      cbn [set_model _model shift_x _cards]. by rewrite lookup_alter. }
    split; [done|]. split; [|split; [done|split; [done|split]]].
    + rewrite Hstock. unfold g1.
      cbn [addChild set_children set_model stockPile children fmap list_fmap].
      by rewrite <- app_assoc.
    + intros k Hk. cbn [fmap list_fmap] in Hk.
      apply not_elem_of_cons in Hk as [Hne Hk].
      rewrite Hout by done. rewrite Hcards1. by rewrite decide_False.
    + intros [|j] c' Hj.
      * injection Hj as <-. rewrite Hout by done. rewrite Hcards1.
        rewrite decide_True by done. by rewrite Nat.add_0_r.
      * cbn [lookup list_lookup] in Hj. rewrite (Hin j c' Hj).
        rewrite Hcards1, decide_False.
        -- unfold g1.
           cbn [addChild set_children set_model stockPile children].
           rewrite length_app. cbn [length].
           by replace (length (stockPile g) + 1 + j)%nat
             with (length (stockPile g) + S j)%nat by lia.
        -- intros Heq. apply Hc. rewrite Heq.
           apply list_elem_of_fmap. exists c'. split; [done|].
           by apply list_elem_of_lookup_2 with j.
Qed.

Lemma id_imap_card_of (start : nat) (a : string) (l : list LayoutItem) :
  id <$> imap (λ j, card_of (Z.of_nat (start + j)) a) l
  = seqZ (Z.of_nat start) (Z.of_nat (length l)).
Proof.
  apply list_eq. intros i. rewrite list_lookup_fmap, list_lookup_imap.
  destruct (l !! i) as [item|] eqn:Hi; cbn [fmap option_fmap option_map].
  - apply lookup_lt_Some in Hi. rewrite lookup_seqZ_lt by lia.
    cbn [card_of id]. f_equal. lia.
  - apply lookup_ge_None in Hi. by rewrite lookup_seqZ_ge by lia.
Qed.

(** The stack entries as cards: the stock cards, then the discard card. *)
Lemma stack_cards_split (M : nat) (stack : list LayoutItem) :
  imap (λ j, card_of (Z.of_nat (M + j))
               (if bool_decide (j + 1 = length stack)%nat
                then "discard" else "stock")) stack
  = (imap (λ j, card_of (Z.of_nat (M + j)) "stock")
       (take (length stack - 1) stack)
     ++ imap (λ j, card_of (Z.of_nat (M + (length stack - 1) + j)) "discard")
          (drop (length stack - 1) stack))%list.
Proof.
  remember (length stack) as S eqn:HS.
  rewrite <- (take_drop (S - 1) stack) at 1.
  rewrite imap_app. f_equal.
  - apply imap_ext. intros j item Hj. cbn beta.
    apply lookup_lt_Some in Hj. rewrite length_take in Hj.
    rewrite bool_decide_eq_false_2; [done|lia].
  - apply imap_ext. intros j item Hj. cbn beta.
    apply lookup_lt_Some in Hj. rewrite length_drop in Hj.
    rewrite length_take.
    rewrite bool_decide_eq_true_2 by lia. do 2 f_equal. lia.
Qed.

Lemma loaded_zone_lists (playfield stack : list LayoutItem) :
  let M := length playfield in
  let S := length stack in
  let m := (loadData (mkLayout (Some playfield) (Some stack))
              new_GameModel).2 in
  getCardsInArea m "main" = imap (λ i, card_of (Z.of_nat i) "main") playfield
  ∧ getCardsInArea m "stock"
    = imap (λ j, card_of (Z.of_nat (M + j)) "stock") (take (S - 1) stack)
  ∧ getCardsInArea m "discard"
    = imap (λ j, card_of (Z.of_nat (M + (S - 1) + j)) "discard")
        (drop (S - 1) stack).
Proof.
  intros M S m. unfold m. rewrite !getCardsInArea_loaded. unfold loaded_cards.
  rewrite stack_cards_split, !filter_app. fold M S.
  split; [|split].
  - rewrite filter_imap_all, !filter_imap_none by (intros; unfold card_of; simpl; congruence).
    by rewrite !app_nil_r.
  - rewrite (filter_imap_all _ _ (take (S - 1) stack))
      by (intros; unfold card_of; simpl; congruence).
    rewrite !filter_imap_none by (intros; unfold card_of; simpl; congruence).
    by rewrite app_nil_r.
  - rewrite (filter_imap_all _ _ (drop (S - 1) stack))
      by (intros; unfold card_of; simpl; congruence).
    by rewrite !filter_imap_none by (intros; unfold card_of; simpl; congruence).
Qed.

Lemma loaded_wf playfield stack :
  ledger_wf (_cards (loadData (mkLayout (Some playfield) (Some stack))
                       new_GameModel).2).
Proof. apply loadData_wf, ledger_wf_empty. Qed.

(** The controller after [_createAllCards] on a first load. *)
Lemma createAllCards_loaded (playfield stack : list LayoutItem) :
  let M := length playfield in
  let S := length stack in
  let m := (loadData (mkLayout (Some playfield) (Some stack))
              new_GameModel).2 in
  let g := _createAllCards (set_model m new_GameController) in
  mainCardArea g = seqZ 0 (Z.of_nat M)
  ∧ stockPile g = seqZ (Z.of_nat M) (Z.of_nat (S - 1))
  ∧ discardPile g
    = seqZ (Z.of_nat (M + (S - 1))) (Z.of_nat (S - (S - 1)))
  ∧ _history (_model g) = []
  ∧ ∀ k, _cards (_model g) !! k
         = if decide (Z.of_nat M ≤ k < Z.of_nat (M + (S - 1)))
           then shifted ((k - Z.of_nat M) * 100) <$> _cards m !! k
           else _cards m !! k.
Proof.
  intros M S m g.
  destruct (loaded_zone_lists playfield stack) as (Lmain & Lstock & Ldiscard).
  fold M S m in Lmain, Lstock, Ldiscard.
  pose proof (loaded_wf playfield stack) as Hwf. fold m in Hwf.
  set (g0 := set_model m new_GameController).
  (* the main cards *)
  set (g1 := foldl (λ g data, _createCardNode data g) g0
               (getCardsInArea (_model g0) "main")).
  destruct (createPlain_fold MainCardArea (getCardsInArea (_model g0) "main")
              g0) as [Hm1 Hq1]; [done| |].
  { intros c Hc. by apply getCardsInArea_elem_iff in Hc as [-> _]. }
  fold g1 in Hm1, Hq1.
  assert (Hstock1 : stockPile g1 = []).
  { change (stockPile g1) with (children g1 StockPile).
    by rewrite Hq1, decide_False by done. }
  assert (Hdiscard1 : discardPile g1 = []).
  { change (discardPile g1) with (children g1 DiscardPile).
    by rewrite Hq1, decide_False by done. }
  (* the stock cards *)
  set (g2 := foldl (λ g data, _createCardNode data g) g1
               (getCardsInArea (_model g1) "stock")).
  assert (Hids2 : id <$> getCardsInArea (_model g1) "stock"
                  = seqZ (Z.of_nat M) (Z.of_nat (S - 1))).
  { rewrite Hm1. cbn [g0 set_model _model]. rewrite Lstock.
    rewrite id_imap_card_of, length_take. do 2 f_equal. lia. }
  destruct (createStock_fold (getCardsInArea (_model g1) "stock") g1)
    as (Hmain2 & Hstock2 & Hdiscard2 & Hhist2 & Hout2 & Hin2).
  { intros c Hc. rewrite Hm1 in Hc.
    by apply getCardsInArea_elem_iff in Hc as [-> _]. }
  { rewrite Hids2. apply NoDup_seqZ. }
  fold g2 in Hmain2, Hstock2, Hdiscard2, Hhist2, Hout2, Hin2.
  assert (Hcards2 : ∀ k, _cards (_model g2) !! k
            = if decide (Z.of_nat M ≤ k < Z.of_nat (M + (S - 1)))
              then shifted ((k - Z.of_nat M) * 100) <$> _cards m !! k
              else _cards m !! k).
  { intros k. case_decide as Hk.
    - destruct (lookup_lt_is_Some_2 (getCardsInArea (_model g1) "stock")
                  (Z.to_nat (k - Z.of_nat M))) as [c Hc].
      { rewrite <- (length_fmap id), Hids2, length_seqZ. lia. }
      assert (Hidc : id c = k).
      { assert (Hl : (id <$> getCardsInArea (_model g1) "stock")
                     !! Z.to_nat (k - Z.of_nat M) = Some (id c))
          by by rewrite list_lookup_fmap, Hc.
        rewrite Hids2 in Hl. apply lookup_seqZ in Hl. lia. }
      pose proof (Hin2 _ c Hc) as Hshift. rewrite Hidc in Hshift.
      rewrite Hshift, Hm1, Hstock1. cbn [g0 set_model _model length].
      do 2 f_equal. lia.
    - rewrite Hout2, Hm1; [done|]. rewrite Hids2, elem_of_seqZ. lia. }
  assert (Hwf2 : ledger_wf (_cards (_model g2))).
  { intros k card. rewrite Hcards2. case_decide.
    - destruct (_cards m !! k) as [card'|] eqn:Hk; [|done].
      intros [= <-]. cbn [shifted place id]. by apply Hwf.
    - apply Hwf. }
  (* the discard card *)
  assert (Lg2 : getCardsInArea (_model g2) "discard"
                = getCardsInArea m "discard").
  { apply getCardsInArea_ext; [done|done|]. intros card Harea.
    rewrite Hcards2. case_decide as Hk; [|done].
    destruct (_cards m !! id card) as [card'|] eqn:Hcard;
      cbn [fmap option_fmap option_map]; [|done].
    assert (Hstock : area card' = "stock").
    { destruct (lookup_lt_is_Some_2 (getCardsInArea m "stock")
                  (Z.to_nat (id card - Z.of_nat M))) as [c Hc].
      { rewrite Lstock, length_imap, length_take. lia. }
      assert (Hc' := Hc). rewrite Lstock, list_lookup_imap in Hc'.
      destruct (take (S - 1) stack !! _) as [item|]; [|done].
      injection Hc' as Hc'.
      apply list_elem_of_lookup_2, getCardsInArea_elem_iff in Hc
        as [Ha Hl]; [|done].
      rewrite <- Hc' in Hl. cbn [card_of id] in Hl.
      replace (Z.of_nat (M + Z.to_nat (id card - Z.of_nat M))) with (id card)
        in Hl by lia.
      rewrite Hl in Hcard. by injection Hcard as <-. }
    split; intros [= Heq]; exfalso; rewrite <- Heq in Harea;
      cbn [shifted place area] in Harea; congruence. }
  destruct (createPlain_fold DiscardPile (getCardsInArea (_model g2) "discard")
              g2) as [Hm3 Hq3]; [done| |].
  { intros c Hc. rewrite Lg2 in Hc.
    by apply getCardsInArea_elem_iff in Hc as [-> _]. }
  assert (Hg : g = foldl (λ g data, _createCardNode data g) g2
                 (getCardsInArea (_model g2) "discard")) by reflexivity.
  rewrite <- Hg in Hm3, Hq3.
  split; [|split; [|split; [|split]]].
  - change (mainCardArea g) with (children g MainCardArea).
    rewrite Hq3, decide_False by done. cbn [children].
    rewrite Hmain2. change (mainCardArea g1) with (children g1 MainCardArea).
    rewrite Hq1, decide_True by done.
    cbn [g0 children set_model new_GameController mainCardArea _model].
    rewrite Lmain, app_nil_l.
    exact (id_imap_card_of 0 "main" playfield).
  - change (stockPile g) with (children g StockPile).
    rewrite Hq3, decide_False by done. cbn [children].
    by rewrite Hstock2, Hids2, Hstock1.
  - change (discardPile g) with (children g DiscardPile).
    rewrite Hq3, decide_True by done. cbn [children].
    rewrite Hdiscard2, Hdiscard1.
    rewrite app_nil_l, Lg2, Ldiscard, id_imap_card_of, length_drop. done.
  - rewrite Hm3, Hhist2, Hm1. done.
  - intros k. rewrite Hm3. apply Hcards2.
Qed.

Lemma loaded_cards_main playfield stack i item :
  playfield !! i = Some item →
  loaded_cards playfield stack !! i = Some (card_of (Z.of_nat i) "main" item).
Proof.
  intros Hi. unfold loaded_cards.
  rewrite lookup_app_l by (rewrite length_imap; by eapply lookup_lt_Some).
  by rewrite list_lookup_imap, Hi.
Qed.

Lemma loaded_cards_stack playfield stack j item :
  stack !! j = Some item →
  loaded_cards playfield stack !! (length playfield + j)%nat
  = Some (card_of (Z.of_nat (length playfield + j))
            (if bool_decide (j + 1 = length stack)%nat
             then "discard" else "stock") item).
Proof.
  intros Hj. unfold loaded_cards.
  rewrite lookup_app_r by (rewrite length_imap; lia).
  rewrite length_imap, list_lookup_imap.
  replace (length playfield + j - length playfield)%nat with j by lia.
  by rewrite Hj.
Qed.



(** X9. A start on a layout without its lists: when the main list or the
    stack list is absent, the start raises the [TypeError] of [loadData]
    and no card node is created, the three piles stay empty; with only the
    stack list absent the ledger nevertheless holds the main cards. *)
Theorem loadConfig_malformed (json : Layout) :
  Playfield json = None ∨ Stack json = None →
  let r := _loadConfig json new_GameController in
  r.1 = TypeError
  ∧ mainCardArea r.2 = [] ∧ stockPile r.2 = [] ∧ discardPile r.2 = []
  ∧ _history (_model r.2) = []
  ∧ (Playfield json = None → _cards (_model r.2) = ∅)
  ∧ (∀ playfield, Playfield json = Some playfield →
       ∀ i item, playfield !! i = Some item →
         getCardById (_model r.2) (Z.of_nat i)
         = Some (new_CardData (Z.of_nat i) (CardFace item) (CardSuit item)
                   "main" (Position item))).
Proof.
  intros Hmal r. unfold r, _loadConfig, loadData, getCardById.
  destruct (Playfield json) as [playfield|] eqn:Hplay.
  - destruct Hmal as [Hmal|Hmal]; [done|]. rewrite Hmal.
    cbn [fst snd set_model _model _cards _history new_GameController
         new_GameModel mainCardArea stockPile discardPile].
    repeat (split; [done|]). intros ? [= <-] i item Hi.
    exact (forEach_load_inside (λ _, "main") _ 0 0 _ _ _ Hi).
  - by repeat split.
Qed.

Lemma loadConfig_malformed_witness :
  let json :=
    {| Playfield := Some [mkLayoutItem 3 0 (mkVec2 10 20)]; Stack := None |} in
  let r := _loadConfig json new_GameController in
  (Playfield json = None ∨ Stack json = None)
  ∧ r.1 = TypeError
  ∧ mainCardArea r.2 = []
  ∧ getCardById (_model r.2) 0
    = Some (new_CardData 0 3 0 "main" (mkVec2 10 20)).
Proof.
  intros json r.
  assert (Hmal : Playfield json = None ∨ Stack json = None)
    by (right; reflexivity).
  destruct (loadConfig_malformed json Hmal)
    as (Hraise & Hmain & _ & _ & _ & _ & Hcards).
  split; [exact Hmal|]. split; [exact Hraise|]. split; [exact Hmain|].
  exact (Hcards _ eq_refl 0%nat _ eq_refl).
Defined.

(** ** The scene and the ledger stay together *)

Lemma NoDup_setParent g p n :
  scene_tree g → (∀ q, NoDup (children g q)) →
  ∀ q, NoDup (children (setParent p n g) q).
Proof.
  intros Htree Hnodup q.
  assert (Hrem : ∀ q, NoDup (children (removeFromParent n g) q)).
  { intros q'. unfold removeFromParent. destruct (parent g n) as [p0|]; [|done].
    rewrite children_set_children. case_decide; [|done].
    by apply NoDup_filter. }
  unfold setParent. rewrite children_set_children. case_decide; [|done].
  apply NoDup_app. split; [done|]. split; [|apply NoDup_singleton].
  intros n' Hn' ->%list_elem_of_singleton.
  by apply removeFromParent_children in Hn' as [? _].
Qed.

(** Moving the node of a card to the pile of the zone that the ledger
    gives to the card keeps the scene and the ledger together. *)
Lemma setParent_synced g m p n card :
  scene_synced g →
  _cards m = <[n := card]> (_cards (_model g)) →
  id card = n → area card = area_name p →
  scene_synced (setParent p n (set_model m g)).
Proof.
  intros (Hwf & Hg & Hnode & Hnodup) Hcards Hid Harea.
  assert (Htree : scene_tree (set_model m g))
    by by apply scene_tree_set_model, scene_consistent_tree.
  split; [|split; [|split]].
  - rewrite model_setParent. cbn [set_model _model]. rewrite Hcards.
    intros k card'. rewrite lookup_insert. case_decide; [|apply Hwf].
    intros [= <-]. congruence.
  - by apply setParent_consistent with (card := card).
  - rewrite model_setParent. cbn [set_model _model]. rewrite Hcards.
    intros k card'. rewrite lookup_insert. case_decide as Hk.
    + intros [= <-]. exists p. split; [done|].
      apply setParent_children; [done|]. left. by subst.
    + intros Hcard'. destruct (Hnode k card' Hcard') as (q & Hq & Hin).
      exists q. split; [done|]. apply setParent_children; [done|].
      right. rewrite children_set_model. split; [congruence|done].
  - apply NoDup_setParent; [done|]. intros q. by rewrite children_set_model.
Qed.

Lemma moveCardToDiscard_synced g n p :
  scene_synced g → parent g n = Some p →
  scene_synced (_moveCardToDiscard n g).
Proof.
  intros Hsync Hp. pose proof Hsync as (Hwf & Hg & _).
  destruct (Hg p n (parent_Some _ _ _ Hp)) as (card & Hcard & Harea).
  unfold _moveCardToDiscard, moveCard. rewrite Hcard, Hp.
  apply setParent_synced
    with (card := place card "discard" (mkVec2 0 0)); try done.
  cbn [place id]. by apply Hwf.
Qed.

Lemma onCardClick_synced active intersects n g :
  scene_synced g → scene_synced (_onCardClick active intersects n g).2.
Proof.
  intros Hsync. unfold _onCardClick.
  destruct (_isCovered active intersects g n); [done|].
  destruct (parent g n) as [[]|] eqn:Hp; try done.
  - destruct (isMatch g n) as [[]|]; try done.
    by apply moveCardToDiscard_synced with (p := MainCardArea).
  - by apply moveCardToDiscard_synced with (p := StockPile).
Qed.

Lemma onUndo_synced g :
  scene_synced g → history_areas g → scene_synced (_onUndo g).
Proof.
  intros Hsync Hh. pose proof Hsync as (Hwf & Hg & Hnode & Hnodup).
  unfold _onUndo, undo.
  destruct (pop (_history (_model g))) as [[last history]|] eqn:Hpop;
    [|by rewrite set_model_same].
  apply pop_Some in Hpop.
  destruct (Hh last) as [p Hlast];
    [rewrite Hpop, elem_of_app, list_elem_of_singleton; by right|].
  destruct (_cards (_model g) !! cardId last) as [card|] eqn:Hcard.
  - rewrite parent_set_model.
    destruct (Hnode _ _ Hcard) as (q & _ & Hq).
    rewrite (parent_child g _ q) by (done || by apply scene_consistent_tree).
    rewrite Hlast.
    apply setParent_synced
      with (card := place card (oldArea last) (oldPos last)); try done.
    + cbn [place id]. by apply Hwf.
    + by apply getNodeForArea_Some.
  - rewrite parent_set_model.
    destruct (parent g (cardId last)) as [q|] eqn:Hq.
    + apply parent_Some in Hq. destruct (Hg _ _ Hq) as (card & Hsome & _).
      congruence.
    + split; [done|]. split; [|split].
      * intros q n Hn. rewrite children_set_model in Hn. by apply Hg.
      * intros k card Hk. destruct (Hnode k card Hk) as (q & ? & ?).
        exists q. by rewrite children_set_model.
      * intros q. by rewrite children_set_model.
Qed.

Lemma loadConfig_layout json g :
  _loadConfig json new_GameController = (Normal tt, g) →
  ∃ playfield stack,
    json = mkLayout (Some playfield) (Some stack)
    ∧ g = _createAllCards
            (set_model (loadData json new_GameModel).2 new_GameController).
Proof.
  unfold _loadConfig, loadData. destruct json as [[playfield|] [stack|]];
    cbn [Playfield Stack]; try done.
  intros [= <-]. by exists playfield, stack.
Qed.

Lemma loadConfig_synced json g :
  _loadConfig json new_GameController = (Normal tt, g) → scene_synced g.
Proof.
  intros Hstart. pose proof (loadConfig_inv _ _ Hstart) as [Hg _].
  destruct (loadConfig_layout _ _ Hstart) as (playfield & stack & -> & ->).
  destruct (createAllCards_loaded playfield stack)
    as (Hmain & Hstock & Hdiscard & _ & Hcards).
  set (m := (loadData (mkLayout (Some playfield) (Some stack))
               new_GameModel).2) in *.
  set (g := _createAllCards (set_model m new_GameController)) in *.
  set (M := length playfield) in *. set (S := length stack) in *.
  pose proof (loaded_wf playfield stack) as Hwf. fold m in Hwf.
  split; [|split; [done|split]].
  - intros k card. rewrite Hcards. case_decide.
    + destruct (_cards m !! k) as [card'|] eqn:Hk; [|done].
      intros [= <-]. cbn [shifted place id]. by apply Hwf.
    + apply Hwf.
  - intros k card Hk.
    assert (Harea : ∃ card', _cards m !! k = Some card'
                             ∧ area card = area card').
    { rewrite Hcards in Hk. case_decide; [|eauto].
      destruct (_cards m !! k) as [card'|]; [|done].
      injection Hk as <-. eauto. }
    destruct Harea as (card' & Hk' & ->). clear Hk.
    unfold m in Hk'. rewrite loadData_lookup in Hk'. fold M S in Hk'.
    case_decide as Hrange; [|done].
    destruct (decide (k < Z.of_nat M)) as [Hlt|Hge].
    + destruct (lookup_lt_is_Some_2 playfield (Z.to_nat k)) as [item Hitem];
        [fold M; lia|].
      rewrite (loaded_cards_main _ stack _ _ Hitem) in Hk'.
      injection Hk' as <-. exists MainCardArea. split; [done|].
      cbn [children]. rewrite Hmain, elem_of_seqZ. lia.
    + destruct (lookup_lt_is_Some_2 stack (Z.to_nat k - M)) as [item Hitem];
        [fold S; lia|].
      pose proof (loaded_cards_stack playfield _ _ _ Hitem) as Hl.
      fold M S in Hl.
      replace (M + (Z.to_nat k - M))%nat with (Z.to_nat k) in Hl by lia.
      rewrite Hl in Hk'. injection Hk' as <-. cbn [card_of area].
      case_bool_decide.
      * exists DiscardPile. split; [done|].
        cbn [children]. rewrite Hdiscard, elem_of_seqZ. lia.
      * exists StockPile. split; [done|].
        cbn [children]. rewrite Hstock, elem_of_seqZ. lia.
  - intros []; cbn [children]; rewrite ?Hmain, ?Hstock, ?Hdiscard;
      apply NoDup_seqZ.
Qed.

Lemma playing_synced g : playing g → scene_synced g.
Proof.
  induction 1 as [json g Hstart|active intersects n g Hg IH|g Hg IH].
  - by eapply loadConfig_synced.
  - by apply onCardClick_synced.
  - apply onUndo_synced; [done|]. by apply playing_inv.
Qed.

Lemma plays_playing g0 g : playing g0 → plays g0 g → playing g.
Proof.
  intros Hg0. induction 1; [done|by apply playing_click|by apply playing_undo].
Qed.

(** X10. The scene shows the ledger, card for card: in every state of a
    started game, a node is a child of a pile exactly when the ledger holds
    its card in the zone of that pile; no pile holds a node twice; every
    card is stored under its id and is in one of the zones main, stock and
    discard; and there are as many nodes as cards. *)
Theorem scene_shows_ledger (g : GameController) :
  playing g →
  (∀ p n, n ∈ children g p
          ↔ ∃ card, getCardById (_model g) n = Some card
                    ∧ area card = area_name p)
  ∧ (∀ p, NoDup (children g p))
  ∧ (∀ k card, getCardById (_model g) k = Some card →
       id card = k ∧ area card ∈ ["main"; "stock"; "discard"])
  ∧ (length (mainCardArea g) + length (stockPile g)
     + length (discardPile g))%nat = size (_cards (_model g)).
Proof.
  intros Hplay. destruct (playing_synced g Hplay) as (Hwf & Hg & Hnode & Hnodup).
  pose proof (scene_consistent_tree g Hg) as Htree.
  unfold getCardById.
  assert (Hiff : ∀ p n, n ∈ children g p
            ↔ ∃ card, _cards (_model g) !! n = Some card
                      ∧ area card = area_name p).
  { intros p n. split; [apply Hg|].
    intros (card & Hcard & Harea).
    destruct (Hnode n card Hcard) as (q & Hq & Hin).
    assert (q = p) as -> by (apply area_name_inj; congruence). done. }
  split; [done|]. split; [done|]. split.
  - intros k card Hk. split; [by apply Hwf|].
    destruct (Hnode k card Hk) as ([] & -> & _); cbn [area_name];
      rewrite !elem_of_cons; auto.
  - set (nodes := (mainCardArea g ++ stockPile g ++ discardPile g)%list).
    assert (Hnodes : NoDup nodes).
    { unfold nodes. apply NoDup_app. split; [apply (Hnodup MainCardArea)|].
      split.
      - intros n Hmain [Hstock|Hdiscard]%elem_of_app.
        + by pose proof (Htree MainCardArea StockPile n Hmain Hstock).
        + by pose proof (Htree MainCardArea DiscardPile n Hmain Hdiscard).
      - apply NoDup_app. split; [apply (Hnodup StockPile)|].
        split; [|apply (Hnodup DiscardPile)].
        intros n Hstock Hdiscard.
        by pose proof (Htree StockPile DiscardPile n Hstock Hdiscard). }
    assert (Hdom : dom (_cards (_model g)) = list_to_set nodes).
    { apply set_eq. intros k.
      rewrite elem_of_dom, elem_of_list_to_set. unfold nodes.
      rewrite !elem_of_app. split.
      - intros [card Hk]. destruct (Hnode k card Hk) as ([] & _ & Hin); auto.
      - intros [Hin|[Hin|Hin]].
        + destruct (Hg MainCardArea k Hin) as (card & -> & _). eauto.
        + destruct (Hg StockPile k Hin) as (card & -> & _). eauto.
        + destruct (Hg DiscardPile k Hin) as (card & -> & _). eauto. }
    rewrite <- size_dom, Hdom, size_list_to_set by done.
    unfold nodes. rewrite !length_app. lia.
Qed.

Lemma scene_shows_ledger_witness :
  playing scenario_controller
  ∧ (1 ∈ children scenario_controller StockPile
     ↔ ∃ card, getCardById (_model scenario_controller) 1 = Some card
               ∧ area card = "stock")
  ∧ size (_cards (_model scenario_controller)) = 3%nat.
Proof.
  destruct (scene_shows_ledger scenario_controller scenario_playing)
    as (Hiff & _ & _ & Hsize).
  split; [exact scenario_playing|]. split; [exact (Hiff StockPile 1)|].
  symmetry. exact Hsize.
Defined.

(** X11. A started game never raises: in every state of a started game,
    [isMatch] returns [true] or [false] for every id, of a card or not, and
    a click on any node returns normally, whatever the occlusion test
    answers. *)
Theorem playing_never_raises (g : GameController) :
  playing g →
  (∀ cardId, isMatch g cardId = Normal true ∨ isMatch g cardId = Normal false)
  ∧ (∀ active intersects n,
       (_onCardClick active intersects n g).1 = Normal tt).
Proof.
  intros Hplay. pose proof (playing_inv g Hplay) as Hinv. split.
  - intros c. destruct (isMatch_total g c (proj1 Hinv)) as [[] ->]; auto.
  - intros active intersects n.
    by destruct (onCardClick_inv active intersects n g Hinv).
Qed.

Lemma playing_never_raises_witness :
  playing scenario_controller
  ∧ (isMatch scenario_controller 5 = Normal true
     ∨ isMatch scenario_controller 5 = Normal false)
  ∧ (_onCardClick (λ _, true) (λ _ _, true) 0 scenario_controller).1
    = Normal tt.
Proof.
  destruct (playing_never_raises scenario_controller scenario_playing)
    as [Hmatch Hclick].
  split; [exact scenario_playing|]. split; [exact (Hmatch 5)|].
  exact (Hclick _ _ 0).
Defined.

(** ** The first discard card *)

Lemma setParent_discard_head g p n d rest :
  discardPile g = d :: rest → n ≠ d →
  ∃ rest', discardPile (setParent p n g) = d :: rest'.
Proof.
  intros Hd Hne. unfold setParent, removeFromParent.
  destruct (parent g n) as [[]|], p;
    cbn [set_children children discardPile]; rewrite ?Hd;
    rewrite ?filter_cons, ?decide_True by done; eauto.
Qed.

Lemma parent_discard g d rest :
  discardPile g = d :: rest → parent g d = Some DiscardPile.
Proof.
  intros Hd. unfold parent. rewrite Hd.
  rewrite bool_decide_eq_true_2; [done|by left].
Qed.

Lemma moveCardToDiscard_base g n p d card :
  ledger_wf (_cards (_model g)) → discard_base d g →
  parent g n = Some p → p ≠ DiscardPile →
  _cards (_model g) !! d = Some card →
  discard_base d (_moveCardToDiscard n g)
  ∧ _cards (_model (_moveCardToDiscard n g)) !! d = Some card.
Proof.
  intros Hwf [[rest Hd] Hh] Hp Hne Hcard.
  assert (Hnd : n ≠ d).
  { intros ->. rewrite (parent_discard g d rest Hd) in Hp. congruence. }
  unfold _moveCardToDiscard, moveCard.
  destruct (_cards (_model g) !! n) as [cardn|] eqn:Hn;
    [|by repeat split; eauto].
  rewrite Hp. split; [split|].
  - by apply setParent_discard_head with (rest := rest).
  - intros r. rewrite model_setParent. cbn [set_model _model _history].
    rewrite elem_of_app, list_elem_of_singleton.
    intros [Hr| ->]; [by apply Hh|].
    cbn [cardId]. by rewrite (Hwf _ _ Hn).
  - rewrite model_setParent. cbn [set_model _model _cards].
    by rewrite lookup_insert_ne.
Qed.

Lemma onCardClick_base active intersects n g d card :
  ledger_wf (_cards (_model g)) → discard_base d g →
  _cards (_model g) !! d = Some card →
  discard_base d (_onCardClick active intersects n g).2
  ∧ _cards (_model (_onCardClick active intersects n g).2) !! d = Some card.
Proof.
  intros Hwf Hbase Hcard. unfold _onCardClick.
  destruct (_isCovered active intersects g n); [done|].
  destruct (parent g n) as [[]|] eqn:Hp; try done.
  - destruct (isMatch g n) as [[]|]; try done.
    by apply moveCardToDiscard_base with (p := MainCardArea).
  - by apply moveCardToDiscard_base with (p := StockPile).
Qed.

Lemma set_model_base g m d card rest G :
  discardPile g = d :: rest →
  (∀ r, r ∈ _history m → cardId r ≠ d) →
  _cards m !! d = Some card →
  G = set_model m g ∨ (∃ p n, n ≠ d ∧ G = setParent p n (set_model m g)) →
  discard_base d G ∧ _cards (_model G) !! d = Some card.
Proof.
  intros Hd Hh Hcard [->|(p & n & Hn & ->)].
  - split; [split|]; [exists rest; exact Hd|exact Hh|exact Hcard].
  - split; [split|]; rewrite ?model_setParent; [|exact Hh|exact Hcard].
    by apply setParent_discard_head with (rest := rest).
Qed.

Lemma onUndo_base g d card :
  discard_base d g → _cards (_model g) !! d = Some card →
  discard_base d (_onUndo g)
  ∧ _cards (_model (_onUndo g)) !! d = Some card.
Proof.
  intros [[rest Hd] Hh] Hcard. unfold _onUndo, undo.
  destruct (pop (_history (_model g))) as [[last history]|] eqn:Hpop.
  - apply pop_Some in Hpop.
    assert (Hlast : cardId last ≠ d).
    { apply Hh. rewrite Hpop, elem_of_app, list_elem_of_singleton. by right. }
    assert (Hrest : ∀ r, r ∈ history → cardId r ≠ d).
    { intros r Hr. apply Hh. rewrite Hpop, elem_of_app. by left. }
    destruct (_cards (_model g) !! cardId last) as [cardl|] eqn:Hl;
      rewrite parent_set_model;
      match goal with
      | |- context [set_model ?m' g] =>
          apply (set_model_base g m' d card rest)
      end;
      [done|done|cbn [_cards]; by rewrite ?lookup_insert_ne by done|
       |done|done|done|];
      destruct (parent g (cardId last)) as [q|]; auto;
      destruct (_getNodeForArea (oldArea last)) as [p|]; eauto.
  - apply (set_model_base g (_model g) d card rest); auto.
Qed.

(** X12. The first discard card stays: in a game started on a layout with
    M main entries and S >= 1 stack entries, after any clicks and undos
    the card M+S-1 of the last stack entry is still at the bottom of the
    discard pile, in zone discard at its position of the layout, so the
    discard pile is never empty and [isMatch] always has a top card to
    compare with. *)
Theorem first_discard_stays (playfield stack : list LayoutItem)
    (g : GameController) :
  stack ≠ [] →
  plays (_loadConfig (mkLayout (Some playfield) (Some stack))
           new_GameController).2 g →
  let d := Z.of_nat (length playfield + length stack) - 1 in
  head (discardPile g) = Some d
  ∧ discardPile g ≠ []
  ∧ (∃ item, last stack = Some item
       ∧ getCardById (_model g) d
         = Some (new_CardData d (CardFace item) (CardSuit item) "discard"
                   (Position item)))
  ∧ (∃ top topCard, last (discardPile g) = Some top
       ∧ getCardById (_model g) top = Some topCard
       ∧ area topCard = "discard").
Proof.
  intros Hne Hplays d.
  set (g0 := (_loadConfig (mkLayout (Some playfield) (Some stack))
                new_GameController).2) in *.
  assert (HS : (1 ≤ length stack)%nat) by (destruct stack; [done|simpl; lia]).
  destruct (last stack) as [item|] eqn:Hlast; [|by apply last_None in Hlast].
  set (cardd := new_CardData d (CardFace item) (CardSuit item) "discard"
                  (Position item)).
  assert (Hstart : playing g0).
  { apply (playing_start (mkLayout (Some playfield) (Some stack))).
    reflexivity. }
  assert (Hinv : playing g ∧ discard_base d g
                 ∧ _cards (_model g) !! d = Some cardd).
  { induction Hplays as [|active intersects n g Hplays IH|g Hplays IH].
    - split; [done|].
      destruct (createAllCards_loaded playfield stack)
        as (_ & _ & Hdiscard & Hhist & Hcards).
      change (_createAllCards _) with g0 in Hdiscard, Hhist, Hcards.
      split; [split|].
      + exists []. rewrite Hdiscard.
        replace (length stack - (length stack - 1))%nat with 1%nat by lia.
        change (Z.of_nat 1) with 1.
        rewrite seqZ_cons, seqZ_nil by lia. unfold d. f_equal. lia.
      + intros r. rewrite Hhist. by intros ?%elem_of_nil.
      + rewrite Hcards, decide_False by (unfold d; lia).
        rewrite loadData_lookup, decide_True by (unfold d; lia).
        rewrite last_lookup in Hlast.
        pose proof (loaded_cards_stack playfield stack _ item Hlast) as Hl.
        replace (Z.to_nat d)
          with (length playfield + pred (length stack))%nat
          by (unfold d; lia).
        rewrite Hl, bool_decide_eq_true_2 by lia.
        unfold cardd, card_of, d. do 2 f_equal. lia.
    - destruct IH as (Hplay & Hbase & Hcard).
      split; [by apply playing_click|].
      apply onCardClick_base; [|done|done].
      apply (playing_synced g Hplay).
    - destruct IH as (Hplay & Hbase & Hcard).
      split; [by apply playing_undo|]. by apply onUndo_base. }
  destruct Hinv as (Hplay & [[rest Hd] _] & Hcard).
  split; [by rewrite Hd|]. split; [by rewrite Hd|].
  split; [by exists item|].
  destruct (last (discardPile g)) as [top|] eqn:Htop;
    [|apply last_None in Htop; by rewrite Hd in Htop].
  destruct (proj1 (playing_inv g Hplay) DiscardPile top)
    as (topCard & HtopCard & Harea); [by apply last_Some_elem_of|].
  by exists top, topCard.
Qed.

Lemma first_discard_stays_witness :
  let g := _onUndo (_onCardClick (λ _, true) (λ _ _, false) 1
                       (_loadConfig scenario_layout new_GameController).2).2 in
  [mkLayoutItem 7 1 (mkVec2 0 0); mkLayoutItem 8 2 (mkVec2 5 0)] ≠ []
  ∧ head (discardPile g) = Some 2
  ∧ discardPile g ≠ [].
Proof.
  intros g.
  assert (Hne : [mkLayoutItem 7 1 (mkVec2 0 0);
                 mkLayoutItem 8 2 (mkVec2 5 0)] ≠ []) by done.
  destruct (first_discard_stays [mkLayoutItem 3 0 (mkVec2 10 20)] _ g Hne)
    as (Hhead & Hnil & _).
  { apply plays_undo, plays_click, plays_here. }
  split; [exact Hne|]. split; [exact Hhead|exact Hnil].
Defined.

(** ** A click and its undo *)

Lemma children_setParent g p n p0 q :
  parent g n = Some p0 →
  children (setParent p n g) q
  = if decide (q = p)
    then ((if decide (p = p0) then filter (λ n', n' ≠ n) (children g p0)
           else children g p) ++ [n])%list
    else if decide (q = p0) then filter (λ n', n' ≠ n) (children g p0)
    else children g q.
Proof.
  intros Hp. unfold setParent, removeFromParent. rewrite Hp.
  rewrite !children_set_children. by repeat case_decide; subst.
Qed.

Lemma filter_ne_id (n : Z) (l : list Z) :
  n ∉ l → filter (λ n', n' ≠ n) l = l.
Proof.
  induction l as [|a l IH]; [done|]. intros [Ha Hl]%not_elem_of_cons.
  rewrite filter_cons, decide_True by done. by rewrite IH.
Qed.

Lemma controller_ext g g' :
  _model g = _model g' → (∀ q, children g q = children g' q) → g = g'.
Proof.
  destruct g, g'. cbn [_model]. intros -> Hq.
  pose proof (Hq MainCardArea). pose proof (Hq StockPile).
  pose proof (Hq DiscardPile). cbn [children mainCardArea stockPile
    discardPile] in *. congruence.
Qed.

Lemma undo_moveCard_record k a p m card :
  ledger_wf (_cards m) → _cards m !! k = Some card →
  undo (moveCard k a p m).2
  = (Some {| cardId := k; oldArea := area card;
             oldPos := {| x := x (position card);
                          y := y (position card) |} |}, m).
Proof.
  intros Hwf Hk. unfold moveCard. rewrite Hk.
  unfold undo; cbn [snd _cards _history].
  rewrite pop_snoc; cbn [cardId oldArea oldPos].
  rewrite (Hwf _ _ Hk), lookup_insert_eq.
  rewrite place_back, insert_insert_eq, (insert_id _ _ _ Hk).
  by destruct m.
Qed.

(** X13. A click and its undo: in a scene that goes with its ledger, as
    every scene of a started game does, when a click moves a card, the
    undo that follows gives back the model as it was before the click,
    puts the node back into its pile as the last child, and leaves every
    other pile as it was.  So the controller is back in its state when the
    node was the top of its pile, and otherwise the card comes back above
    the nodes that were above it. *)
Theorem click_undo (active : Z → bool) (intersects : Z → Z → bool)
    (g g1 : GameController) (n : Z) :
  scene_synced g →
  _onCardClick active intersects n g = (Normal tt, g1) →
  g1 ≠ g →
  ∃ p, parent g n = Some p ∧ p ≠ DiscardPile
    ∧ last (discardPile g1) = Some n
    ∧ _model (_onUndo g1) = _model g
    ∧ children (_onUndo g1) p
      = (filter (λ n', n' ≠ n) (children g p) ++ [n])%list
    ∧ (∀ q, q ≠ p → children (_onUndo g1) q = children g q)
    ∧ (last (children g p) = Some n → _onUndo g1 = g).
Proof.
  intros (Hwf & Hg & Hnode & Hnodup) Hclick Hmoved.
  pose proof (scene_consistent_tree g Hg) as Htree.
  assert (Hp : ∃ p, parent g n = Some p ∧ p ≠ DiscardPile
                    ∧ g1 = _moveCardToDiscard n g).
  { unfold _onCardClick in Hclick.
    destruct (_isCovered active intersects g n); [by injection Hclick|].
    destruct (parent g n) as [[]|] eqn:Hp; try by injection Hclick.
    - destruct (isMatch g n) as [[]|]; try by injection Hclick.
      exists MainCardArea. by injection Hclick as <-.
    - exists StockPile. by injection Hclick as <-. }
  destruct Hp as (p & Hp & Hne & ->). exists p.
  destruct (Hg p n (parent_Some _ _ _ Hp)) as (card & Hcard & Harea).
  assert (Hnd : n ∉ discardPile g).
  { intros Hin. apply Hne. by apply (Htree p DiscardPile n);
      [apply parent_Some|]. }
  set (m1 := (moveCard n "discard" (mkVec2 0 0) (_model g)).2).
  assert (Hg1 : _moveCardToDiscard n g
                = setParent DiscardPile n (set_model m1 g)).
  { unfold _moveCardToDiscard, m1, moveCard. by rewrite Hcard, Hp. }
  assert (Hq1 : ∀ q, children (_moveCardToDiscard n g) q
            = if decide (q = DiscardPile) then (discardPile g ++ [n])%list
              else if decide (q = p)
                   then filter (λ n', n' ≠ n) (children g p)
                   else children g q).
  { intros q. rewrite Hg1, (children_setParent _ _ _ p) by done.
    rewrite (decide_False (P := DiscardPile = p)) by done.
    by rewrite !children_set_model. }
  assert (Hundo : _onUndo (_moveCardToDiscard n g)
                  = setParent p n
                      (set_model (_model g) (_moveCardToDiscard n g))).
  { unfold _onUndo. rewrite Hg1 at 1. rewrite model_setParent.
    cbn [set_model _model]. unfold m1.
    rewrite (undo_moveCard_record _ _ _ _ card) by done.
    cbn [cardId oldArea]. rewrite parent_set_model.
    assert (Hpar : parent (_moveCardToDiscard n g) n = Some DiscardPile).
    { unfold parent.
      change (discardPile (_moveCardToDiscard n g))
        with (children (_moveCardToDiscard n g) DiscardPile).
      rewrite Hq1, decide_True by done.
      rewrite bool_decide_eq_true_2; [done|].
      rewrite elem_of_app, list_elem_of_singleton. by right. }
    by rewrite Hpar, Harea, getNodeForArea_area_name. }
  assert (Hq2 : ∀ q, children (_onUndo (_moveCardToDiscard n g)) q
            = if decide (q = p)
              then (filter (λ n', n' ≠ n) (children g p) ++ [n])%list
              else children g q).
  { intros q. rewrite Hundo, (children_setParent _ _ _ DiscardPile).
    - rewrite (decide_False (P := p = DiscardPile)) by done.
      rewrite !children_set_model, !Hq1.
      rewrite (decide_False (P := p = DiscardPile)) by done.
      rewrite (decide_True (P := p = p)) by done.
      rewrite (decide_True (P := DiscardPile = DiscardPile)) by done.
      case_decide; [done|]. case_decide as Hqd; [|done].
      subst q. rewrite filter_app, filter_ne_id by done.
      rewrite filter_cons, decide_False by (intros ?; done).
      by rewrite filter_nil, app_nil_r.
    - rewrite parent_set_model. unfold parent.
      change (discardPile (_moveCardToDiscard n g))
        with (children (_moveCardToDiscard n g) DiscardPile).
      rewrite Hq1, decide_True by done.
      rewrite bool_decide_eq_true_2; [done|].
      rewrite elem_of_app, list_elem_of_singleton. by right. }
  assert (Hm2 : _model (_onUndo (_moveCardToDiscard n g)) = _model g)
    by by rewrite Hundo, model_setParent.
  split; [done|]. split; [done|]. split; [|split; [done|split; [|split]]].
  - change (discardPile (_moveCardToDiscard n g))
      with (children (_moveCardToDiscard n g) DiscardPile).
    rewrite Hq1, decide_True by done. apply last_snoc.
  - by rewrite Hq2, decide_True.
  - intros q Hq. by rewrite Hq2, decide_False.
  - intros Htop. apply controller_ext; [done|]. intros q. rewrite Hq2.
    case_decide; [|done]. subst q.
    apply last_Some in Htop as [l Hl]. rewrite Hl.
    pose proof (Hnodup p) as Hnd'. rewrite Hl in Hnd'.
    apply NoDup_app in Hnd' as (_ & Hdisj & _).
    rewrite filter_app, filter_ne_id.
    + rewrite filter_cons, decide_False by (intros ?; done).
      by rewrite filter_nil, app_nil_r.
    + intros Hin. apply (Hdisj n Hin). by left.
Qed.

Lemma click_undo_witness :
  let free := λ _ : Z, false in
  let g1 := _moveCardToDiscard 1 scenario_controller in
  scene_synced scenario_controller
  ∧ _onCardClick free (λ _, free) 1 scenario_controller = (Normal tt, g1)
  ∧ g1 ≠ scenario_controller
  ∧ _onUndo g1 = scenario_controller.
Proof.
  intros free g1.
  assert (Hsync : scene_synced scenario_controller)
    by exact (playing_synced _ scenario_playing).
  assert (Hclick : _onCardClick free (λ _, free) 1 scenario_controller
                   = (Normal tt, g1)) by (vm_compute; reflexivity).
  assert (Hne : g1 ≠ scenario_controller).
  { intros Heq. apply (f_equal stockPile) in Heq. vm_compute in Heq.
    discriminate Heq. }
  destruct (click_undo free (λ _, free) scenario_controller g1 1
              Hsync Hclick Hne) as (p & Hp & _ & _ & _ & _ & _ & Hback).
  split; [exact Hsync|]. split; [exact Hclick|]. split; [exact Hne|].
  apply Hback.
  assert (p = StockPile) as ->.
  { assert (Hpar : parent scenario_controller 1 = Some StockPile)
      by (vm_compute; reflexivity).
    congruence. }
  reflexivity.
Defined.

(** ** Occlusion *)

(** X14. The occlusion rule: for a node at a place in the children of its
    pile, [_isCovered] answers [true] exactly when some node after it in
    the pile is active and has a bounding box that intersects its own; the
    nodes before it do not count, and the last child of a pile is never
    covered. *)
Theorem isCovered_spec (active : Z → bool) (intersects : Z → Z → bool)
    (g : GameController) (n : Z) (p : PileNode) (l1 l2 : list Z) :
  parent g n = Some p →
  children g p = (l1 ++ n :: l2)%list →
  n ∉ l1 →
  (_isCovered active intersects g n = true
   ↔ ∃ u, u ∈ l2 ∧ active u = true ∧ intersects n u = true)
  ∧ (l2 = [] → _isCovered active intersects g n = false).
Proof.
  intros Hp Hl Hn.
  assert (Hfind : list_find (λ n', n' = n) (l1 ++ n :: l2)
                  = Some (length l1, n)).
  { apply list_find_Some. split; [|split; [done|]].
    - by rewrite lookup_app_r, Nat.sub_diag by lia.
    - intros j y Hj Hlt ->. apply Hn.
      rewrite lookup_app_l in Hj by done. by apply list_elem_of_lookup_2 in Hj. }
  assert (Hdrop : drop (S (length l1)) (l1 ++ n :: l2) = l2).
  { change (n :: l2) with ([n] ++ l2)%list. rewrite app_assoc.
    replace (S (length l1)) with (length (l1 ++ [n]))
      by (rewrite length_app; simpl; lia).
    apply drop_app_length. }
  assert (Hcov : _isCovered active intersects g n
                 = existsb (λ u, active u && intersects n u) l2).
  { unfold _isCovered. by rewrite Hp, Hl, Hfind, Hdrop. }
  rewrite Hcov. split.
  - rewrite existsb_exists. split.
    + intros (u & Hin & [Ha Hi]%andb_true_iff). exists u.
      by rewrite list_elem_of_In.
    + intros (u & Hin & Ha & Hi). exists u.
      rewrite <- list_elem_of_In. by rewrite Ha, Hi.
  - by intros ->.
Qed.

Lemma isCovered_spec_witness :
  let g := {| _model := scenario_model;
              mainCardArea := [0]; stockPile := [1; 5; 6];
              discardPile := [2] |} in
  let active := λ u, bool_decide (u ≠ 1) in
  let intersects := λ n u : Z, bool_decide (u = n + 1 ∨ u = n - 4) in
  parent g 5 = Some StockPile
  ∧ children g StockPile = ([1] ++ 5 :: [6])%list
  ∧ (5 ∉ [1])
  ∧ _isCovered active intersects g 5 = true.
Proof.
  intros g active intersects.
  assert (Hp : parent g 5 = Some StockPile) by (vm_compute; reflexivity).
  assert (Hl : children g StockPile = ([1] ++ 5 :: [6])%list) by reflexivity.
  assert (Hn : 5 ∉ [1]) by (intros ?%list_elem_of_singleton; done).
  destruct (isCovered_spec active intersects g 5 StockPile [1] [6]
              Hp Hl Hn) as [Hiff _].
  split; [exact Hp|]. split; [exact Hl|]. split; [exact Hn|].
  apply Hiff. exists 6. split; [by left|]. split; reflexivity.
Defined.

(** ** What a card shows *)


(** X15. Every card has its own look: with the three sprites found, two
    cards with suits in 0..3 and faces in 0..12 for which [updateDisplay]
    asks for the same three sprite frames have the same suit and the same
    face. *)
Theorem updateDisplay_distinct (suit face suit' face' : Z) :
  0 ≤ suit ≤ 3 → 0 ≤ face ≤ 12 → 0 ≤ suit' ≤ 3 → 0 ≤ face' ≤ 12 →
  updateDisplay true true true suit face
  = updateDisplay true true true suit' face' →
  suit = suit' ∧ face = face'.
Proof.
  intros Hs Hf Hs' Hf'.
  assert (Hall :
    Forall (λ s, Forall (λ f, Forall (λ s', Forall (λ f',
      updateDisplay true true true s f = updateDisplay true true true s' f' →
      s = s' ∧ f = f') (seqZ 0 13)) (seqZ 0 4)) (seqZ 0 13)) (seqZ 0 4)).
  { refine (bool_decide_unpack _ _). vm_compute. exact I. }
  rewrite Forall_forall in Hall.
  specialize (Hall suit). rewrite elem_of_seqZ, Forall_forall in Hall.
  specialize (Hall ltac:(lia) face).
  rewrite elem_of_seqZ, Forall_forall in Hall.
  specialize (Hall ltac:(lia) suit').
  rewrite elem_of_seqZ, Forall_forall in Hall.
  specialize (Hall ltac:(lia) face'). rewrite elem_of_seqZ in Hall.
  apply Hall. lia.
Qed.

Lemma updateDisplay_distinct_witness :
  0 ≤ 1 ≤ 3 ∧ 0 ≤ 9 ≤ 12 ∧ 0 ≤ 2 ≤ 3
  ∧ updateDisplay true true true 1 9 ≠ updateDisplay true true true 2 9.
Proof.
  split; [lia|]. split; [lia|]. split; [lia|].
  intros Heq.
  destruct (updateDisplay_distinct 1 9 2 9 ltac:(lia) ltac:(lia) ltac:(lia)
              ltac:(lia) Heq) as [Hsuit _].
  discriminate Hsuit.
Defined.



(** ** Undoing a whole game *)

Lemma run_app ops1 ops2 m : run (ops1 ++ ops2) m = run ops2 (run ops1 m).
Proof.
  revert m. induction ops1 as [|op ops1 IH]; intros m; [done|].
  cbn [app run]. apply IH.
Qed.

Lemma run_wf ops m : ledger_wf (_cards m) → ledger_wf (_cards (run ops m)).
Proof.
  revert m. induction ops as [|op rest IH]; intros m Hwf; [done|].
  cbn [run]. apply IH. destruct op; cbn [step_op]; auto with ledger.
Qed.

Lemma run_undo_all ops m :
  ledger_wf (_cards m) →
  undos (length (_history (run ops m))) (run ops m)
  = undos (length (_history m)) m.
Proof.
  revert m. induction ops as [|op rest IH]; intros m Hwf; [done|].
  cbn [run]. rewrite IH by (destruct op; cbn [step_op]; auto with ledger).
  by apply undo_run_back.
Qed.

Lemma onUndo_model g : _model (_onUndo g) = (undo (_model g)).2.
Proof.
  unfold _onUndo. destruct (undo (_model g)) as [[last|] m]; [|done].
  cbn [snd]. rewrite parent_set_model.
  destruct (parent g (cardId last)); [|done].
  destruct (_getNodeForArea (oldArea last)); [|done].
  by rewrite model_setParent.
Qed.

Lemma onCardClick_model active intersects n g :
  ∃ ops, _model (_onCardClick active intersects n g).2 = run ops (_model g).
Proof.
  assert (Hmove : ∃ ops, _model (_moveCardToDiscard n g)
                         = run ops (_model g)).
  { exists [OpMove n "discard" (mkVec2 0 0)]. apply moveCardToDiscard_model. }
  unfold _onCardClick.
  destruct (_isCovered active intersects g n); [by exists []|].
  destruct (parent g n) as [[]|]; try by exists [].
  - destruct (isMatch g n) as [[]|]; by (done || exists []).
  - done.
Qed.

Lemma plays_run g0 g : plays g0 g → ∃ ops, _model g = run ops (_model g0).
Proof.
  induction 1 as [|active intersects n g _ [ops IH]|g _ [ops IH]].
  - by exists [].
  - destruct (onCardClick_model active intersects n g) as [ops' Hops'].
    exists (ops ++ ops')%list. by rewrite run_app, <- IH.
  - exists (ops ++ [OpUndo])%list.
    by rewrite run_app, <- IH, onUndo_model.
Qed.

Lemma onUndos_model n g : _model (onUndos n g) = undos n (_model g).
Proof.
  revert g. induction n as [|n IH]; intros g; [done|].
  cbn [onUndos undos]. by rewrite IH, onUndo_model.
Qed.

Lemma onUndos_playing n g : playing g → playing (onUndos n g).
Proof.
  revert g. induction n as [|n IH]; intros g Hg; [done|].
  cbn [onUndos]. by apply IH, playing_undo.
Qed.

Lemma playing_children_iff g p n :
  playing g →
  n ∈ children g p
  ↔ ∃ card, _cards (_model g) !! n = Some card ∧ area card = area_name p.
Proof.
  intros Hplay. destruct (playing_synced g Hplay) as (_ & Hg & Hnode & _).
  split; [apply Hg|].
  intros (card & Hcard & Harea).
  destruct (Hnode n card Hcard) as (q & Hq & Hin).
  assert (q = p) as -> by (apply area_name_inj; congruence). done.
Qed.

(** X17. Undoing a whole game: from a state of a started game with an
    empty history, as the state at the start is, after any clicks and
    undos, as many clicks on the undo button as the history has records
    give back the model of that state, every card in its zone at its
    position and an empty history, and every pile holds the nodes that it
    held; only their order in a pile may differ. *)
Theorem undo_whole_game (g0 g : GameController) :
  playing g0 → _history (_model g0) = [] → plays g0 g →
  let g' := onUndos (length (_history (_model g))) g in
  _model g' = _model g0
  ∧ ∀ p n, n ∈ children g' p ↔ n ∈ children g0 p.
Proof.
  intros Hg0 Hempty Hplays g'.
  assert (Hmodel : _model g' = _model g0).
  { unfold g'. rewrite onUndos_model.
    destruct (plays_run g0 g Hplays) as [ops ->].
    rewrite run_undo_all by apply (playing_synced g0 Hg0).
    by rewrite Hempty. }
  split; [done|]. intros p n.
  rewrite !playing_children_iff, Hmodel; [done|done|].
  by apply onUndos_playing, (plays_playing g0).
Qed.

Lemma undo_whole_game_witness :
  let free := λ _ : Z, false in
  let g := (_onCardClick free (λ _, free) 1 scenario_controller).2 in
  playing scenario_controller
  ∧ _history (_model scenario_controller) = []
  ∧ plays scenario_controller g
  ∧ length (_history (_model g)) = 1%nat
  ∧ _model (onUndos 1 g) = _model scenario_controller.
Proof.
  intros free g.
  assert (Hplays : plays scenario_controller g)
    by apply plays_click, plays_here.
  assert (Hlen : length (_history (_model g)) = 1%nat)
    by (vm_compute; reflexivity).
  split; [exact scenario_playing|]. split; [reflexivity|].
  split; [exact Hplays|]. split; [exact Hlen|].
  rewrite <- Hlen.
  exact (proj1 (undo_whole_game scenario_controller g scenario_playing
                  eq_refl Hplays)).
Defined.
